(** * VitteLangVsCode: the LSP formatter (formatting.ts)

    A shallow embedding of the line-based formatter and the properties its
    description states about it.

    Strings are JavaScript strings: sequences of UTF-16 code units, modelled
    as lists of numbers.  The regular expressions of the source become
    matchers on the remaining suffix of a string, run by two generic drivers
    ([replaceAll] for the [g] flag, [replaceFirst] without it).  The
    exceptions the formatter can raise are the [None] of an option result:
    the [RangeError] of ["\t".repeat(Infinity)] in [normalizeIndent],
    threaded through the passes, and the [Error] of [Range.create] in
    [fullRange], which depends on the version of the library. *)

From Stdlib Require Import String Ascii NArith ZArith Arith Bool Lia List.
Import ListNotations.

(* ------------------------------------------------------------------------- *)
(** ** Code units and strings *)

Definition char := N.
Definition jsstring := list char.

Definition ch (a : ascii) : char := N_of_ascii a.
Definition str (s : string) : jsstring := map ch (list_ascii_of_string s).

Definition TAB : char := 9%N.
Definition LF : char := 10%N.
Definition CR : char := 13%N.
Definition SP : char := 32%N.
Definition DQ : char := 34%N.   (* the double quote *)
Definition SQ : char := 39%N.   (* the single quote *)
Definition BSL : char := 92%N.  (* the backslash *)

Definition chEq (a b : char) : bool := N.eqb a b.

Definition oneOf (cs : list char) (c : char) : bool := existsb (chEq c) cs.

Definition inRange (lo hi c : char) : bool := (N.leb lo c && N.leb c hi)%bool.

(** The class [\s] of a JavaScript regular expression (also what [trim]
    strips): white space and line terminators. *)
Local Open Scope N_scope.

Definition isSpace (c : char) : bool :=
  (oneOf [9; 10; 11; 12; 13; 32; 160; 5760; 8232; 8233; 8239; 8287; 12288; 65279] c
   || inRange 8192 8202 c)%bool.

(** What [.] refuses to match. *)
Definition isLineTerminator (c : char) : bool := oneOf [10; 13; 8232; 8233] c.

(** The class [[ \t]]. *)
Definition isSpTab (c : char) : bool := (chEq c SP || chEq c TAB)%bool.

(** The class [\w]. *)
Definition isWordChar (c : char) : bool :=
  (inRange 65 90 c || inRange 97 122 c || inRange 48 57 c || chEq c 95)%bool.

Definition isHighSurrogate (c : char) : bool := inRange 55296 56319 c.
Definition isLowSurrogate (c : char) : bool := inRange 56320 57343 c.

Local Close Scope N_scope.

Definition isQuote (c : char) : bool := (chEq c DQ || chEq c SQ)%bool.

Definition isOpenBracket (c : char) : bool := oneOf (str "{[(") c.
Definition isCloseBracket (c : char) : bool := oneOf (str "}])") c.

Fixpoint takeWhile (p : char -> bool) (s : jsstring) : jsstring :=
  match s with
  | c :: s' => if p c then c :: takeWhile p s' else []
  | [] => []
  end.

Fixpoint dropWhile (p : char -> bool) (s : jsstring) : jsstring :=
  match s with
  | c :: s' => if p c then dropWhile p s' else s
  | [] => []
  end.

Fixpoint strEq (a b : jsstring) : bool :=
  match a, b with
  | [], [] => true
  | x :: a', y :: b' => (chEq x y && strEq a' b')%bool
  | _, _ => false
  end.

Fixpoint startsWith (p s : jsstring) : bool :=
  match p, s with
  | [], _ => true
  | x :: p', y :: s' => (chEq x y && startsWith p' s')%bool
  | _ :: _, [] => false
  end.

Definition endsWith (s p : jsstring) : bool := startsWith (rev p) (rev s).

(** [s.repeat(n)]. *)
Definition repeatStr (s : jsstring) (n : nat) : jsstring := concat (repeat s n).

(** [lines.join(sep)]. *)
Fixpoint join (sep : jsstring) (parts : list jsstring) : jsstring :=
  match parts with
  | [] => []
  | [p] => p
  | p :: rest => p ++ sep ++ join sep rest
  end.

(** [s.split(c)] for a one-character separator: never empty. *)
Fixpoint splitOnFrom (c : char) (cur : jsstring) (s : jsstring) : list jsstring :=
  match s with
  | [] => [cur]
  | x :: s' => if chEq x c then cur :: splitOnFrom c [] s'
               else splitOnFrom c (cur ++ [x]) s'
  end.

Definition splitOn (c : char) (s : jsstring) : list jsstring := splitOnFrom c [] s.

(** [s.includes(c)]. *)
Definition includes (s : jsstring) (c : char) : bool := existsb (chEq c) s.

(** [s.trim()]. *)
Definition trim (s : jsstring) : jsstring :=
  rev (dropWhile isSpace (rev (dropWhile isSpace s))).

(* ------------------------------------------------------------------------- *)
(** ** Regular expressions as matchers

    A matcher looks at the rest of the string from a position and, when the
    expression matches there, gives the replacement text and the number of
    code units matched.  No expression of the formatter that is used for
    replacement matches the empty string. *)

Definition matcher := jsstring -> option (jsstring * nat).

(** [s.replace(/re/g, rep)]: leftmost matches, left to right, never
    overlapping; [skip] counts the code units of the current match that are
    still to be passed over. *)
Fixpoint replaceFrom (m : matcher) (skip : nat) (s : jsstring) : jsstring :=
  match s with
  | [] => []
  | c :: s' =>
      match skip with
      | S k => replaceFrom m k s'
      | O =>
          match m s with
          | Some (rep, n) => rep ++ replaceFrom m (Nat.pred n) s'
          | None => c :: replaceFrom m 0 s'
          end
      end
  end.

Definition replaceAll (m : matcher) (s : jsstring) : jsstring := replaceFrom m 0 s.

(** [s.replace(/re/, rep)]: the leftmost match only. *)
Fixpoint replaceFirst (m : matcher) (s : jsstring) : jsstring :=
  match s with
  | [] => []
  | c :: s' =>
      match m s with
      | Some (rep, n) => rep ++ skipn n s
      | None => c :: replaceFirst m s'
      end
  end.

(** [/re/.test(s)] for an expression without [^]. *)
Fixpoint testAnywhere (m : matcher) (s : jsstring) : bool :=
  match s with
  | [] => false
  | _ :: s' => match m s with Some _ => true | None => testAnywhere m s' end
  end.

(** [/^\s*$/.test(l)]. *)
Definition isBlank (l : jsstring) : bool := forallb isSpace l.

(** [/[ \t]+$/g], replaced by the empty string. *)
Definition rxTrailingSpTab : matcher := fun s =>
  match takeWhile isSpTab s, dropWhile isSpTab s with
  | (_ :: _) as run, [] => Some ([], length run)
  | _, _ => None
  end.

Definition trimTrailingSpTab (s : jsstring) : jsstring := replaceAll rxTrailingSpTab s.

(** [s.replace(/^[ \t]+/, "")]. *)
Definition stripLeadingSpTab (s : jsstring) : jsstring := dropWhile isSpTab s.

(* ------------------------------------------------------------------------- *)
(** ** Analyse chaînes / commentaires et réécriture sécurisée *)

(** [visualWidth]: the [for ... of] loop walks code points, so a surrogate
    pair counts once.  [tabSize] is positive at every call that reaches this
    function ([normalizeIndent] treats 0 apart). *)
Fixpoint visualWidthFrom (tabSize w : nat) (s : jsstring) : nat :=
  match s with
  | [] => w
  | c :: s' =>
      if chEq c TAB then visualWidthFrom tabSize (w + (tabSize - (w mod tabSize))) s'
      else
        match s' with
        | d :: s'' =>
            if (isHighSurrogate c && isLowSurrogate d)%bool
            then visualWidthFrom tabSize (w + 1) s''
            else visualWidthFrom tabSize (w + 1) s'
        | [] => w + 1
        end
  end.

Definition visualWidth (s : jsstring) (tabSize : nat) : nat := visualWidthFrom tabSize 0 s.

(** [stripStrings]: [inStr] is the open quote, if any. *)
Fixpoint stripStringsFrom (inStr : option char) (s : jsstring) : jsstring :=
  match s with
  | [] => []
  | c :: s' =>
      match inStr with
      | Some q =>
          if chEq c BSL then
            match s' with
            | _ :: s'' => stripStringsFrom inStr s''
            | [] => []
            end
          else if chEq c q then stripStringsFrom None s'
          else stripStringsFrom inStr s'
      | None =>
          if isQuote c then stripStringsFrom (Some c) s'
          else c :: stripStringsFrom None s'
      end
  end.

Definition stripStrings (s : jsstring) : jsstring := stripStringsFrom None s.

(** [line.indexOf(p, from)], on the suffix that starts at [from]. *)
Fixpoint indexOf (p : jsstring) (s : jsstring) : option nat :=
  if startsWith p s then Some 0
  else match s with
       | [] => None
       | _ :: s' => option_map S (indexOf p s')
       end.

(** [splitCodeAndComment]: [pre] is [line.slice(0, i)]. *)
Fixpoint splitCodeAndCommentFrom (inStr : option char) (pre s : jsstring)
  : jsstring * jsstring :=
  match s with
  | [] => (pre, [])
  | c :: s' =>
      match inStr with
      | Some q =>
          if chEq c BSL then
            match s' with
            | d :: s'' => splitCodeAndCommentFrom inStr (pre ++ [c; d]) s''
            | [] => (pre ++ [c], [])
            end
          else if chEq c q then splitCodeAndCommentFrom None (pre ++ [c]) s'
          else splitCodeAndCommentFrom inStr (pre ++ [c]) s'
      | None =>
          if isQuote c then splitCodeAndCommentFrom (Some c) (pre ++ [c]) s'
          else if (chEq c (ch "/") && startsWith (str "/") s')%bool then (pre, s)
          else if (chEq c (ch "/") && startsWith (str "*") s')%bool then
            match indexOf (str "*/") (tl s') with
            | Some j => (pre, c :: ch "*" :: firstn (j + 2) (tl s'))
            | None => splitCodeAndCommentFrom None (pre ++ [c]) s'
            end
          else splitCodeAndCommentFrom None (pre ++ [c]) s'
      end
  end.

Definition splitCodeAndComment (line : jsstring) : jsstring * jsstring :=
  splitCodeAndCommentFrom None [] line.

(** [rewriteOutsideStrings]: the scanner is in a string ([InStr q]) or in
    code, where [chunk] gathers the code units up to the next quote; [fn] is
    called on non-empty chunks only, as in the source. *)
Inductive ScanState :=
| InCode (chunk : jsstring)
| InStr (q : char).

Definition flushChunk (fn : jsstring -> jsstring) (chunk : jsstring) : jsstring :=
  match chunk with
  | [] => []
  | _ => fn chunk
  end.

Fixpoint rewriteOutsideFrom (fn : jsstring -> jsstring) (st : ScanState) (s : jsstring)
  : jsstring :=
  match s with
  | [] => match st with InCode chunk => flushChunk fn chunk | InStr _ => [] end
  | c :: s' =>
      match st with
      | InStr q =>
          if chEq c BSL then
            match s' with
            | d :: s'' => c :: d :: rewriteOutsideFrom fn (InStr q) s''
            | [] => [c]
            end
          else if chEq c q then c :: rewriteOutsideFrom fn (InCode []) s'
          else c :: rewriteOutsideFrom fn (InStr q) s'
      | InCode chunk =>
          if isQuote c then flushChunk fn chunk ++ c :: rewriteOutsideFrom fn (InStr c) s'
          else rewriteOutsideFrom fn (InCode (chunk ++ [c])) s'
      end
  end.

Definition rewriteOutsideStrings (line : jsstring) (fn : jsstring -> jsstring) : jsstring :=
  rewriteOutsideFrom fn (InCode []) line.

(** [rewriteStrings]: outside a literal, or inside one opened by [q] with
    [content] read so far.  A backslash that ends the line is appended twice
    by the source (once in the escape branch, once by the fall-through). *)
Fixpoint rewriteStringsFrom (fn : jsstring -> char -> jsstring)
    (st : option (char * jsstring)) (s : jsstring) : jsstring :=
  match s with
  | [] => match st with Some (q, content) => fn content q | None => [] end
  | c :: s' =>
      match st with
      | None =>
          if isQuote c then rewriteStringsFrom fn (Some (c, [])) s'
          else c :: rewriteStringsFrom fn None s'
      | Some (q, content) =>
          if chEq c BSL then
            match s' with
            | d :: s'' => rewriteStringsFrom fn (Some (q, content ++ [c; d])) s''
            | [] => fn (content ++ [c; c]) q
            end
          else if chEq c q then fn content q ++ rewriteStringsFrom fn None s'
          else rewriteStringsFrom fn (Some (q, content ++ [c])) s'
      end
  end.

Definition rewriteStrings (line : jsstring) (fn : jsstring -> char -> jsstring) : jsstring :=
  rewriteStringsFrom fn None line.

(* ------------------------------------------------------------------------- *)
(** ** Options étendues *)

Inductive EOLMode := Lf | Crlf.
Inductive ColonMode := ColonNone | ColonLeft | ColonRight | ColonBoth.
Inductive QuoteMode := QuotePreserve | QuoteDouble | QuoteSingle.
Inductive BraceStyle := Attach | Break.

(** Every field may be absent ([undefined]): [None]. *)
Record ExtraFormattingOptions := {
  tabSize : option nat;
  insertSpaces : option bool;
  trimTrailingWhitespace : option bool;
  insertFinalNewline : option bool;
  trimFinalNewlines : option bool;
  normalizeEOL : option EOLMode;
  maxConsecutiveBlankLines : option Z;
  ensureSpaceAroundOperators : option bool;
  spaceAfterComma : option bool;
  spaceAroundColon : option ColonMode;
  normalizeQuotes : option QuoteMode;
  keepIndentInsideStrings : option bool;
  alignInlineComments : option bool;
  alignEquals : option bool;
  braceStyle : option BraceStyle;
  newlineBeforeElse : option bool;
  wrapCommentsAt : option Z
}.

(** The default value of the [options] parameter of [provideFormattingEdits]. *)
Definition defaultOptions : ExtraFormattingOptions := {|
  tabSize := Some 2;
  insertSpaces := Some true;
  trimTrailingWhitespace := Some true;
  insertFinalNewline := Some true;
  trimFinalNewlines := Some true;
  normalizeEOL := Some Lf;
  maxConsecutiveBlankLines := Some 2%Z;
  ensureSpaceAroundOperators := Some true;
  spaceAfterComma := Some true;
  spaceAroundColon := Some ColonRight;
  normalizeQuotes := Some QuotePreserve;
  keepIndentInsideStrings := Some true;
  alignInlineComments := Some true;
  alignEquals := Some true;
  braceStyle := Some Attach;
  newlineBeforeElse := Some false;
  wrapCommentsAt := Some 100%Z
|}.

(** [x ?? d]. *)
Definition orDefault {A} (x : option A) (d : A) : A :=
  match x with Some v => v | None => d end.

(** The truth value of an optional boolean in a condition. *)
Definition truthy (x : option bool) : bool :=
  match x with Some b => b | None => false end.

(* ------------------------------------------------------------------------- *)
(** ** Indentation utilitaires *)

(** [lead.replace(/\t/g, " ".repeat(tabSize))]. *)
Definition expandTabs (tabSize : nat) (lead : jsstring) : jsstring :=
  replaceAll (fun s => match s with
                       | c :: _ => if chEq c TAB then Some (repeatStr [SP] tabSize, 1) else None
                       | [] => None
                       end) lead.

(** [normalizeIndent].  With tabs and [tabSize = 0] the divisions are by
    zero: the width is [NaN] when [lead] holds a tab, [0/0] is [NaN] when
    [lead] is empty, and [repeat(NaN)] is the empty string; any other [lead]
    gives [repeat(Infinity)], a [RangeError]. *)
Definition normalizeIndent (line indentUnit : jsstring) (tabSize : nat) (useSpaces : bool)
  : option jsstring :=
  let lead := takeWhile isSpTab line in
  let body := skipn (length lead) line in
  if useSpaces then Some (expandTabs tabSize lead ++ body)
  else
    match tabSize with
    | O => if (includes lead TAB || Nat.eqb (length lead) 0)%bool then Some body else None
    | S _ =>
        let width := visualWidth lead tabSize in
        Some (repeatStr [TAB] (width / tabSize) ++ repeatStr [SP] (width mod tabSize) ++ body)
    end.

Definition applyIndentHeuristic (line : jsstring) (level : Z) (indentUnit : jsstring)
  : jsstring :=
  let body := stripLeadingSpTab line in
  repeatStr indentUnit (Z.to_nat (Z.max 0 level)) ++ body.

(** [(s.match(/[...]/g) || []).length]. *)
Definition countIf (p : char -> bool) (s : jsstring) : nat := length (filter p s).

Definition netBracketDelta (line : jsstring) : Z :=
  let s := stripStrings line in
  let opens := countIf isOpenBracket s in
  let closes := countIf isCloseBracket s in
  (Z.of_nat opens - Z.of_nat closes)%Z.

Definition startsWithClosingBracket (line : jsstring) : bool :=
  match stripLeadingSpTab line with
  | c :: _ => isCloseBracket c
  | [] => false
  end.

(* ------------------------------------------------------------------------- *)
(** ** Espaces — opérateurs, virgules, colon *)

(** The alternatives of the operator expression, in the order of the source. *)
Definition ops : list jsstring :=
  map str
    [ "+="; "-="; "*="; "/="; "%="; "<<="; ">>="; "&="; "^="; "|=";
      "==="; "!=="; "=="; "!="; "<="; ">="; "&&"; "||"; "<<"; ">>";
      "+"; "-"; "*"; "/"; "%"; "<"; ">"; "="; "&"; "|"; "^" ]%string.

(** [\s*(op1|op2|...)\s*], replaced by [" $1 "]: the leading white space is
    taken greedily (no operator starts with white space), the first
    alternative that fits is kept (the rest of the expression cannot fail). *)
Definition rxOperator : matcher := fun s =>
  let rest := dropWhile isSpace s in
  match find (fun op => startsWith op rest) ops with
  | Some op =>
      let after := dropWhile isSpace (skipn (length op) rest) in
      Some (SP :: op ++ [SP], length s - length after)
  | None => None
  end.

(** [/ {2,}/g], replaced by one space. *)
Definition rxSpaces : matcher := fun s =>
  let n := length (takeWhile (chEq SP) s) in
  if 2 <=? n then Some ([SP], n) else None.

Definition ensureSpacesAroundOpsOutsideStrings (line : jsstring) : jsstring :=
  rewriteOutsideStrings line (fun chunk => replaceAll rxSpaces (replaceAll rxOperator chunk)).

(** [\s*c\s*] for a character [c] that is not white space. *)
Definition rxAround (c : char) (rep : jsstring) : matcher := fun s =>
  match dropWhile isSpace s with
  | x :: rest =>
      if chEq x c then Some (rep, length s - length (dropWhile isSpace rest)) else None
  | [] => None
  end.

(** [/, +([,\]\)}])/g], replaced by [",$1"]. *)
Definition rxCommaClose : matcher := fun s =>
  match s with
  | c :: rest =>
      if chEq c (ch ",") then
        match takeWhile (chEq SP) rest, dropWhile (chEq SP) rest with
        | (_ :: _) as run, x :: _ =>
            if oneOf (str ",])}") x then Some ([c; x], 2 + length run) else None
        | _, _ => None
        end
      else None
  | [] => None
  end.

Definition ensureSpaceAfterCommasOutsideStrings (line : jsstring) : jsstring :=
  rewriteOutsideStrings line (fun chunk =>
    replaceAll rxCommaClose (replaceAll (rxAround (ch ",") (str ", ")) chunk)).

(** [mode] is never ["none"] here: the caller filters it. *)
Definition ensureSpaceAroundColonOutsideStrings (line : jsstring) (mode : ColonMode)
  : jsstring :=
  rewriteOutsideStrings line (fun chunk =>
    match mode with
    | ColonLeft => replaceAll (rxAround (ch ":") (str " :")) chunk
    | ColonBoth => replaceAll (rxAround (ch ":") (str " : ")) chunk
    | _ => replaceAll (rxAround (ch ":") (str ": ")) chunk
    end).

(* ------------------------------------------------------------------------- *)
(** ** Quotes normalisation *)

(** [content.replace(/q/g, "\\q")]. *)
Definition escapeQuote (q : char) (content : jsstring) : jsstring :=
  replaceAll (fun s => match s with
                       | c :: _ => if chEq c q then Some ([BSL; q], 1) else None
                       | [] => None
                       end) content.

(** [target] is ["double"] or ["single"]: the caller filters ["preserve"]. *)
Definition normalizeQuotesFn (target : QuoteMode) (content : jsstring) (quote : char)
  : jsstring :=
  match target with
  | QuoteDouble =>
      if (chEq quote SQ && negb (includes content DQ))%bool
      then DQ :: escapeQuote DQ content ++ [DQ]
      else quote :: content ++ [quote]
  | QuoteSingle =>
      if (chEq quote DQ && negb (includes content SQ))%bool
      then SQ :: escapeQuote SQ content ++ [SQ]
      else quote :: content ++ [quote]
  | QuotePreserve => quote :: content ++ [quote]
  end.

Definition normalizeQuotesInLine (line : jsstring) (target : QuoteMode) : jsstring :=
  rewriteStrings line (normalizeQuotesFn target).

(* ------------------------------------------------------------------------- *)
(** ** Style d'accolades et else *)

(** [/\)\s*\{\s*$/]. *)
Definition rxParenBrace (rep : jsstring) : matcher := fun s =>
  match s with
  | c :: rest =>
      if chEq c (ch ")") then
        match dropWhile isSpace rest with
        | b :: tail =>
            if (chEq b (ch "{") && forallb isSpace tail)%bool
            then Some (rep, length s) else None
        | [] => None
        end
      else None
  | [] => None
  end.

Definition applyBraceStyle (line : jsstring) (style : BraceStyle) : jsstring :=
  match style with
  | Attach => replaceFirst (rxParenBrace (str ") {")) line
  | Break => replaceFirst (rxParenBrace (str ")" ++ [LF] ++ str "{")) line
  end.

(** [else\b] at the head of [s]. *)
Definition headElse (s : jsstring) : bool :=
  (startsWith (str "else") s
   && match skipn 4 s with
      | c :: _ => negb (isWordChar c)
      | [] => true
      end)%bool.

(** [/}\s*else\b/g], replaced by ["}\nelse"]. *)
Definition rxBraceElse : matcher := fun s =>
  match s with
  | c :: rest =>
      let after := dropWhile isSpace rest in
      if (chEq c (ch "}") && headElse after)%bool
      then Some (ch "}" :: LF :: str "else", length s - length after + 4)
      else None
  | [] => None
  end.

(** The accumulator [acc] of the source is not read. *)
Definition applyNewlineBeforeElse (line : jsstring) (acc : list jsstring) : jsstring :=
  if (negb (headElse (dropWhile isSpace line)) && testAnywhere rxBraceElse line)%bool
  then replaceAll rxBraceElse line
  else line.

(* ------------------------------------------------------------------------- *)
(** ** Pass 1 — indentation, espaces, quotes, comma/colon, style accolades *)

Section Pass1.

Variables (indentUnit : jsstring) (tabSizeV : nat) (opt : ExtraFormattingOptions).

(** The rewrites of one line that follow its re-indentation. *)
Definition rewriteLine (out : list jsstring) (line0 : jsstring) : jsstring :=
  let line :=
    match normalizeQuotes opt with
    | Some QuoteDouble => normalizeQuotesInLine line0 QuoteDouble
    | Some QuoteSingle => normalizeQuotesInLine line0 QuoteSingle
    | _ => line0
    end in
  let line :=
    if truthy (ensureSpaceAroundOperators opt)
    then ensureSpacesAroundOpsOutsideStrings line else line in
  let line :=
    if truthy (spaceAfterComma opt)
    then ensureSpaceAfterCommasOutsideStrings line else line in
  let line :=
    match spaceAroundColon opt with
    | Some ColonNone | None => line
    | Some mode => ensureSpaceAroundColonOutsideStrings line mode
    end in
  let line := applyBraceStyle line (orDefault (braceStyle opt) Attach) in
  let line :=
    if truthy (newlineBeforeElse opt) then applyNewlineBeforeElse line out else line in
  if orDefault (trimTrailingWhitespace opt) true then trimTrailingSpTab line else line.

(** The indentation given to a normalized line at depth [indentLevel]. *)
Definition indentLine (indentLevel : Z) (raw : jsstring) : jsstring :=
  let preDec := if startsWithClosingBracket raw then 1%Z else 0%Z in
  applyIndentHeuristic raw (Z.max 0 (indentLevel - preDec)) indentUnit.

(** The body of the loop: the state is [out] and [indentLevel]. *)
Definition passStep (st : list jsstring * Z) (raw0 : jsstring)
  : option (list jsstring * Z) :=
  let (out, indentLevel) := st in
  match normalizeIndent raw0 indentUnit tabSizeV (orDefault (insertSpaces opt) true) with
  | None => None
  | Some raw =>
      let line := rewriteLine out (indentLine indentLevel raw) in
      Some (out ++ [line], (indentLevel + netBracketDelta raw)%Z)
  end.

Fixpoint passLoop (st : list jsstring * Z) (src : list jsstring)
  : option (list jsstring * Z) :=
  match src with
  | [] => Some st
  | raw :: rest =>
      match passStep st raw with
      | Some st' => passLoop st' rest
      | None => None
      end
  end.

Definition passIndentAndSpacing (src : list jsstring) : option (list jsstring) :=
  option_map fst (passLoop ([], 0%Z) src).

End Pass1.

(* ------------------------------------------------------------------------- *)
(** ** Limitation des suites de lignes vides *)

(** The loop of [limitBlankRuns] from a line on, [run] being the counter. *)
Fixpoint limitBlankFrom (maxBlank : Z) (run : Z) (lines : list jsstring) : list jsstring :=
  match lines with
  | [] => []
  | l :: rest =>
      if isBlank l then
        let run' := (run + 1)%Z in
        if (run' <=? maxBlank)%Z then [] :: limitBlankFrom maxBlank run' rest
        else limitBlankFrom maxBlank run' rest
      else l :: limitBlankFrom maxBlank 0 rest
  end.

Definition limitBlankRuns (lines : list jsstring) (maxBlank : Z) : list jsstring :=
  limitBlankFrom maxBlank 0 lines.

(* ------------------------------------------------------------------------- *)
(** ** Alignements *)

(** [out[idx] = v] on an index inside the array. *)
Fixpoint setAt (idx : nat) (v : jsstring) (out : list jsstring) : list jsstring :=
  match out, idx with
  | [], _ => []
  | _ :: rest, O => v :: rest
  | x :: rest, S k => x :: setAt k v rest
  end.

(** The first loop of [alignEndOfLineComments]: [info] and [maxCode]. *)
Fixpoint commentInfo (i : nat) (maxCode : nat) (lines : list jsstring)
  : list (nat * jsstring * jsstring) * nat :=
  match lines with
  | [] => ([], maxCode)
  | l :: rest =>
      let (code, comment) := splitCodeAndComment l in
      match comment with
      | [] => commentInfo (S i) maxCode rest
      | _ =>
          let codeTrim := trimTrailingSpTab code in
          let (info, m) := commentInfo (S i) (Nat.max maxCode (length codeTrim)) rest in
          ((i, codeTrim, comment) :: info, m)
      end
  end.

Definition alignEndOfLineComments (lines : list jsstring) : list jsstring :=
  let (info, maxCode) := commentInfo 0 0 lines in
  match info with
  | [] => lines
  | _ =>
      fold_left (fun out '(idx, code, comment) =>
                   let pad := repeatStr [SP] (Nat.max 1 (maxCode - length code + 1)) in
                   setAt idx (code ++ pad ++ comment) out)
                info lines
  end.

(** [/^\s*\/\//.test(sc)]. *)
Definition startsLineComment (sc : jsstring) : bool :=
  startsWith (str "//") (dropWhile isSpace sc).

(** The inner loop of [alignEqualsBlocks], on the lines from index [i] on:
    the block gathered and the index where the loop stops. *)
Fixpoint gatherBlock (i : nat) (block : list nat) (rest : list jsstring) : list nat * nat :=
  match rest with
  | [] => (block, i)
  | l :: rest' =>
      if isBlank l then (block, i)
      else
        let sc := stripStrings l in
        if (includes sc (ch "=") && negb (startsLineComment sc))%bool
        then gatherBlock (S i) (block ++ [i]) rest'
        else
          match block with
          | _ :: _ => (block, i)
          | [] => gatherBlock (S i) block rest'
          end
  end.

(** The column of a block: the widest text before the first ['=']. *)
Definition blockColumn (out : list jsstring) (block : list nat) : nat :=
  fold_left (fun col idx =>
               let before := hd [] (splitOn (ch "=") (nth idx out [])) in
               Nat.max col (visualWidth before 2))
            block 0.

(** The rewrite of one line of a block. *)
Definition alignLine (col : nat) (l : jsstring) : jsstring :=
  let parts := splitOn (ch "=") l in
  let left := hd [] parts in
  let right := join (str "=") (tl parts) in
  let pad := repeatStr [SP] (Nat.max 1 (col - visualWidth left 2)) in
  trimTrailingSpTab left ++ pad ++ str " = " ++ dropWhile isSpace right.

Definition alignBlock (out : list jsstring) (block : list nat) : list jsstring :=
  let col := blockColumn out block in
  fold_left (fun o idx => setAt idx (alignLine col (nth idx o [])) o) block out.

(** The outer loop: each round ends past the line that stopped the inner
    loop, so [S (length lines)] rounds are enough. *)
Fixpoint alignEqualsLoop (fuel : nat) (out : list jsstring) (i : nat) : list jsstring :=
  match fuel with
  | O => out
  | S fuel' =>
      if i <? length out then
        let (block, i') := gatherBlock i [] (skipn i out) in
        let out' := if 2 <=? length block then alignBlock out block else out in
        alignEqualsLoop fuel' out' (S i')
      else out
  end.

Definition alignEqualsBlocks (lines : list jsstring) : list jsstring :=
  alignEqualsLoop (S (length lines)) lines 0.

(* ------------------------------------------------------------------------- *)
(** ** Wrap de commentaires *)

(** [s.split(/\s+/)]. *)
Fixpoint splitWsFrom (cur : jsstring) (inSep : bool) (s : jsstring) : list jsstring :=
  match s with
  | [] => [cur]
  | c :: s' =>
      if isSpace c then
        if inSep then splitWsFrom [] true s' else cur :: splitWsFrom [] true s'
      else splitWsFrom (cur ++ [c]) false s'
  end.

(** The loop of [wrapText] and the push that follows it. *)
Fixpoint packWords (width : Z) (cur : jsstring) (words : list jsstring) : list jsstring :=
  match words with
  | [] => match cur with [] => [] | _ => [cur] end
  | w :: rest =>
      match cur with
      | [] => packWords width w rest
      | _ =>
          if (Z.of_nat (length cur) + 1 + Z.of_nat (length w) <=? width)%Z
          then packWords width (cur ++ [SP] ++ w) rest
          else cur :: packWords width w rest
      end
  end.

Definition wrapText (s : jsstring) (width : Z) : list jsstring :=
  if (Z.of_nat (length s) <=? width)%Z then [s]
  else packWords width [] (splitWsFrom [] false s).

(** The expression of [wrapCommentLines]: white space, two slashes and at
    most one white space character (group 1, the prefix), then any run of
    characters up to the end of the string (group 2, the body).  The dot
    refuses line terminators and [$] is the end of the string, so the body
    must be free of them; giving back the optional white space never helps. *)
Definition matchLineComment (l : jsstring) : option (jsstring * jsstring) :=
  let ws := takeWhile isSpace l in
  let rest := dropWhile isSpace l in
  if startsWith (str "//") rest then
    let after := skipn 2 rest in
    let (sp, body) :=
      match after with
      | c :: body' => if isSpace c then ([c], body') else ([], after)
      | [] => ([], [])
      end in
    if existsb isLineTerminator body then None
    else Some (ws ++ str "//" ++ sp, body)
  else None.

Fixpoint wrapCommentLines (lines : list jsstring) (max : Z) : list jsstring :=
  match lines with
  | [] => []
  | l :: rest =>
      match matchLineComment l with
      | None => l :: wrapCommentLines rest max
      | Some (prefix, m2) =>
          let body := trim m2 in
          let wrapped := wrapText body (max - Z.of_nat (visualWidth prefix 2))%Z in
          map (fun w => prefix ++ w) wrapped ++ wrapCommentLines rest max
      end
  end.

(* ------------------------------------------------------------------------- *)
(** ** Formatage par passes *)

Definition formatLines (src : list jsstring) (opt : ExtraFormattingOptions)
  : option (list jsstring) :=
  let tabSizeV := orDefault (tabSize opt) 2 in
  let indentUnit :=
    if orDefault (insertSpaces opt) true then repeatStr [SP] tabSizeV else [TAB] in
  match passIndentAndSpacing indentUnit tabSizeV opt src with
  | None => None
  | Some lines =>
      let lines := limitBlankRuns lines (orDefault (maxConsecutiveBlankLines opt) 2%Z) in
      let lines := if truthy (alignInlineComments opt) then alignEndOfLineComments lines
                   else lines in
      let lines := if truthy (alignEquals opt) then alignEqualsBlocks lines else lines in
      let lines :=
        match wrapCommentsAt opt with
        | Some w => if (10 <? w)%Z then wrapCommentLines lines w else lines
        | None => lines
        end in
      Some lines
  end.

(* ------------------------------------------------------------------------- *)
(** ** EOL / Ranges *)

(** [text.replace(/\r\n/g, "\n")]. *)
Definition crlfToLf (text : jsstring) : jsstring :=
  replaceAll (fun s => if startsWith [CR; LF] s then Some ([LF], 2) else None) text.

Definition splitLines (text : jsstring) : list jsstring := splitOn LF (crlfToLf text).

(** [lf.replace(/\n/g, "\r\n")]. *)
Definition lfToCrlf (text : jsstring) : jsstring :=
  replaceAll (fun s => if startsWith [LF] s then Some ([CR; LF], 1) else None) text.

Definition joinWithEOL (lines : list jsstring) (mode : EOLMode) : jsstring :=
  let lf := join [LF] lines in
  match mode with Crlf => lfToCrlf lf | Lf => lf end.

(** [/\n+$/g], replaced by one line feed. *)
Definition rxFinalNewlines : matcher := fun s =>
  match takeWhile (chEq LF) s, dropWhile (chEq LF) s with
  | (_ :: _) as run, [] => Some ([LF], length run)
  | _, _ => None
  end.

Record Position := { line : nat; character : N }.
Record Range := { range_start : Position; range_end : Position }.
Record TextEdit := { range : Range; newText : jsstring }.

(** What the formatter asks of the host's document. *)
Record TextDocument := {
  getText : jsstring;
  getTextIn : Range -> jsstring;
  lineCount : nat
}.

Definition MAX_SAFE_INTEGER : N := 9007199254740991%N.

(** What the formatter uses of vscode-languageserver-types, which is not
    part of the sources: [Position.create] builds the position and checks
    nothing (it replaces [Number.MAX_VALUE] only, which the formatter never
    passes); [Range.create] on two positions returns the range of the two
    when [Position.is] accepts both, and raises an [Error] otherwise.  The
    versions of the library differ on [Position.is], so it is a parameter. *)
Record Library := { Position_is : Position -> bool }.

Definition Position_create (line : nat) (character : N) : Position :=
  {| line := line; character := character |}.

(** [None] is the [Error] that [Range.create] raises. *)
Definition Range_create (lib : Library) (one two : Position) : option Range :=
  if (Position_is lib one && Position_is lib two)%bool
  then Some {| range_start := one; range_end := two |}
  else None.

(** Before version 3.16, [Position.is] asks for two numbers. *)
Definition types_3_15 : Library := {| Position_is := fun _ => true |}.

(** The largest [uinteger] of the protocol. *)
Definition uinteger_MAX_VALUE : N := 2147483647%N.

(** From version 3.16 on, [Position.is] asks for two [uinteger]s. *)
Definition types_3_16 : Library := {|
  Position_is := fun p =>
    ((N.of_nat (line p) <=? uinteger_MAX_VALUE)%N
     && (character p <=? uinteger_MAX_VALUE)%N)%bool
|}.

(** [None] when one of the two calls of [Range.create] raises. *)
Definition fullRange (lib : Library) (doc : TextDocument) : option Range :=
  let lastLine := Nat.max 0 (lineCount doc - 1) in
  match Range_create lib (Position_create lastLine 0%N)
                         (Position_create lastLine MAX_SAFE_INTEGER) with
  | None => None
  | Some lastRange =>
      let lastText := getTextIn doc lastRange in
      Range_create lib (Position_create 0 0%N)
                       (Position_create lastLine (N.of_nat (length lastText)))
  end.

(* ------------------------------------------------------------------------- *)
(** ** API principale *)

(** The text after the passes, the trimming of final newlines and the
    insertion of the final newline. *)
Definition formattedText (original : jsstring) (options : ExtraFormattingOptions)
  : option jsstring :=
  let lines := splitLines original in
  match formatLines lines options with
  | None => None
  | Some outLines =>
      let text := joinWithEOL outLines (orDefault (normalizeEOL options) Lf) in
      let text := if truthy (trimFinalNewlines options)
                  then replaceAll rxFinalNewlines text else text in
      let text := if (truthy (insertFinalNewline options) && negb (endsWith text [LF]))%bool
                  then text ++ [LF] else text in
      Some text
  end.

(** The original text under the target end-of-line convention. *)
Definition normalizedOrig (original : jsstring) (options : ExtraFormattingOptions)
  : jsstring :=
  joinWithEOL (splitLines original) (orDefault (normalizeEOL options) Lf).

(** [TextEdit.replace]. *)
Definition TextEdit_replace (range : Range) (newText : jsstring) : TextEdit :=
  {| range := range; newText := newText |}.

(** [options] is [None] when the caller passes no options: the default
    value of the parameter is used, whole.  The result is [None] when the
    call raises: the [RangeError] of [repeat] in the passes, or the [Error]
    of [Range.create] in [fullRange], which is reached only when the text
    changes. *)
Definition provideFormattingEdits (lib : Library) (doc : TextDocument)
    (options : option ExtraFormattingOptions) : option (list TextEdit) :=
  let options := orDefault options defaultOptions in
  let original := getText doc in
  match formattedText original options with
  | None => None
  | Some text =>
      if strEq (normalizedOrig original options) text then Some []
      else match fullRange lib doc with
           | None => None
           | Some range => Some [ TextEdit_replace range text ]
           end
  end.

Definition formatDocument (lib : Library) (doc : TextDocument)
    (options : option ExtraFormattingOptions) : option (list TextEdit) :=
  provideFormattingEdits lib doc options.

(* ------------------------------------------------------------------------- *)
(** ** Documents for the examples

    A document as the host builds it from a text: lines end at a line feed,
    at a carriage return or at the pair of both; the text of a range that
    starts at the head of the last line and ends beyond it is that line. *)

Fixpoint hostLinesFrom (cur : jsstring) (s : jsstring) : list jsstring :=
  match s with
  | [] => [cur]
  | c :: s' =>
      if chEq c LF then cur :: hostLinesFrom [] s'
      else if chEq c CR then
        match s' with
        | d :: s'' => if chEq d LF then cur :: hostLinesFrom [] s''
                      else cur :: hostLinesFrom [] s'
        | [] => [cur; []]
        end
      else hostLinesFrom (cur ++ [c]) s'
  end.

Definition mkDocument (text : jsstring) : TextDocument :=
  let ls := hostLinesFrom [] text in
  {| getText := text;
     getTextIn := fun r => nth (line (range_start r)) ls [];
     lineCount := length ls |}.

(** The text of a document after the edits are applied. *)
Definition applyEdits (text : jsstring) (edits : list TextEdit) : jsstring :=
  match edits with
  | [] => text
  | e :: _ => newText e
  end.

(** Lines joined by line feeds, to write the texts of the examples. *)
Definition text_of (lines : list jsstring) : jsstring := join [LF] lines.

(* ------------------------------------------------------------------------- *)
(** ** The suggestion view (suggestionsView.ts): the text helpers *)

(** [/[cs]/g] for a class of single characters, each replaced by [rep c]. *)
Definition rxChar (p : char -> bool) (rep : char -> jsstring) : matcher := fun s =>
  match s with
  | c :: _ => if p c then Some (rep c, 1) else None
  | [] => None
  end.

(** [input.replace(/[<>]/g, "")]. *)
Definition sanitize (input : jsstring) : jsstring :=
  replaceAll (rxChar (oneOf (str "<>")) (fun _ => [])) input.

(** The five replacements of [escapeHtml], in the order of the source. *)
Definition escapeHtml (value : jsstring) : jsstring :=
  let v := replaceAll (rxChar (chEq (ch "&")) (fun _ => str "&amp;")) value in
  let v := replaceAll (rxChar (chEq (ch "<")) (fun _ => str "&lt;")) v in
  let v := replaceAll (rxChar (chEq (ch ">")) (fun _ => str "&gt;")) v in
  let v := replaceAll (rxChar (chEq DQ) (fun _ => str "&quot;")) v in
  replaceAll (rxChar (chEq SQ) (fun _ => str "&#39;")) v.

(* ========================================================================= *)
(** * Vocabulary of the statements *)

(** A line that holds more than white space. *)
Definition nonBlank (l : jsstring) : bool := negb (isBlank l).

(** The counter after the loop has gone through [lines]. *)
Fixpoint runAfter (run : Z) (lines : list jsstring) : Z :=
  match lines with
  | [] => run
  | l :: rest => runAfter (if isBlank l then run + 1 else 0)%Z rest
  end.

(** Where a run of blank lines may start and stop: at an end of the text or
    against a line that is not blank. *)
Definition endsNonBlank (pre : list jsstring) : Prop :=
  pre = [] \/ exists p l, pre = p ++ [l] /\ isBlank l = false.

(** The same for the lines that follow the run. *)
Definition startsNonBlank (post : list jsstring) : Prop :=
  post = [] \/ exists l p, post = l :: p /\ isBlank l = false.

(** A line as its writer sees it: stretches of code and string literals. *)
Inductive Segment :=
| Code (text : jsstring)
| Literal (quote : char) (content : jsstring).

Definition render (seg : Segment) : jsstring :=
  match seg with
  | Code text => text
  | Literal q content => q :: content ++ [q]
  end.

Definition renderLine (segs : list Segment) : jsstring := concat (map render segs).

(** The content of a literal opened by [q]: a backslash takes the next code
    unit with it, [q] does not occur otherwise, and no backslash is left
    alone at the end (it would escape the closing quote). *)
Fixpoint closedContent (q : char) (content : jsstring) : bool :=
  match content with
  | [] => true
  | c :: s' =>
      if chEq c BSL then
        match s' with
        | _ :: s'' => closedContent q s''
        | [] => false
        end
      else (negb (chEq c q) && closedContent q s')%bool
  end.

Definition wellFormed (seg : Segment) : bool :=
  match seg with
  | Code text => forallb (fun c => negb (isQuote c)) text
  | Literal q content => (isQuote q && closedContent q content)%bool
  end.

(** What the claim expects of a literal: the other delimiter when the
    content is free of it, the literal as it is otherwise. *)
Definition requote (target : QuoteMode) (seg : Segment) : Segment :=
  match seg, target with
  | Literal q content, QuoteDouble =>
      if (chEq q SQ && negb (includes content DQ))%bool then Literal DQ content else seg
  | Literal q content, QuoteSingle =>
      if (chEq q DQ && negb (includes content SQ))%bool then Literal SQ content else seg
  | _, _ => seg
  end.

(** A text between double quotes, to write the lines of the examples. *)
Definition dq (s : string) : jsstring := DQ :: str s ++ [DQ].

(** What [rewriteOutsideStrings] is to do on a line of segments: [fn] on
    every maximal stretch of code, the literals as they are. *)
Fixpoint rewriteSegments (fn : jsstring -> jsstring) (chunk : jsstring)
    (segs : list Segment) : jsstring :=
  match segs with
  | [] => flushChunk fn chunk
  | Code text :: rest => rewriteSegments fn (chunk ++ text) rest
  | Literal q content :: rest =>
      flushChunk fn chunk ++ render (Literal q content) ++ rewriteSegments fn [] rest
  end.

(** Options that give the two fields of the protocol and nothing else. *)
Definition lspOptions : ExtraFormattingOptions := {|
  tabSize := Some 2;
  insertSpaces := Some true;
  trimTrailingWhitespace := None;
  insertFinalNewline := None;
  trimFinalNewlines := None;
  normalizeEOL := None;
  maxConsecutiveBlankLines := None;
  ensureSpaceAroundOperators := None;
  spaceAfterComma := None;
  spaceAroundColon := None;
  normalizeQuotes := None;
  keepIndentInsideStrings := None;
  alignInlineComments := None;
  alignEquals := None;
  braceStyle := None;
  newlineBeforeElse := None;
  wrapCommentsAt := None
|}.

(** The same, with the trimming of trailing white space switched off. *)
Definition lspOptionsNoTrim : ExtraFormattingOptions := {|
  tabSize := Some 2;
  insertSpaces := Some true;
  trimTrailingWhitespace := Some false;
  insertFinalNewline := None;
  trimFinalNewlines := None;
  normalizeEOL := None;
  maxConsecutiveBlankLines := None;
  ensureSpaceAroundOperators := None;
  spaceAfterComma := None;
  spaceAroundColon := None;
  normalizeQuotes := None;
  keepIndentInsideStrings := None;
  alignInlineComments := None;
  alignEquals := None;
  braceStyle := None;
  newlineBeforeElse := None;
  wrapCommentsAt := None
|}.

(** The sum of the net bracket deltas of the lines, with no bound. *)
Definition sumDeltas (lines : list jsstring) : Z :=
  fold_right Z.add 0%Z (map netBracketDelta lines).

(** [preDec] of the source, for a line after [normalizeIndent]. *)
Definition preDecOf (raw : jsstring) : Z :=
  if startsWithClosingBracket raw then 1%Z else 0%Z.

(** The text of the last line, as [fullRange] asks the document for it. *)
Definition lastLineText (doc : TextDocument) : jsstring :=
  getTextIn doc {| range_start := {| line := lineCount doc - 1; character := 0%N |};
                   range_end := {| line := lineCount doc - 1;
                                   character := MAX_SAFE_INTEGER |} |}.

(** The range of the whole document: from the head of line 0 to the end of
    the last line. *)
Definition documentRange (doc : TextDocument) : Range :=
  {| range_start := {| line := 0; character := 0%N |};
     range_end := {| line := lineCount doc - 1;
                     character := N.of_nat (length (lastLineText doc)) |} |}.

(** The texts of the edits of a run, with a library whose [Range.create]
    accepts the positions of [fullRange]. *)
Definition editTexts (text : jsstring) (options : option ExtraFormattingOptions)
  : option (list jsstring) :=
  option_map (map newText) (provideFormattingEdits types_3_15 (mkDocument text) options).

(** The default options with the operator spacing switched off. *)
Definition noOperatorSpacing : ExtraFormattingOptions := {|
  tabSize := Some 2;
  insertSpaces := Some true;
  trimTrailingWhitespace := Some true;
  insertFinalNewline := Some true;
  trimFinalNewlines := Some true;
  normalizeEOL := Some Lf;
  maxConsecutiveBlankLines := Some 2%Z;
  ensureSpaceAroundOperators := Some false;
  spaceAfterComma := Some true;
  spaceAroundColon := Some ColonRight;
  normalizeQuotes := Some QuotePreserve;
  keepIndentInsideStrings := Some true;
  alignInlineComments := Some true;
  alignEquals := Some true;
  braceStyle := Some Attach;
  newlineBeforeElse := Some false;
  wrapCommentsAt := Some 100%Z
|}.

(** The options that the description promises: every absent field replaced
    by its documented default (the values of [defaultOptions]). *)
Definition withDefaults (o : ExtraFormattingOptions) : ExtraFormattingOptions := {|
  tabSize := Some (orDefault (tabSize o) 2);
  insertSpaces := Some (orDefault (insertSpaces o) true);
  trimTrailingWhitespace := Some (orDefault (trimTrailingWhitespace o) true);
  insertFinalNewline := Some (orDefault (insertFinalNewline o) true);
  trimFinalNewlines := Some (orDefault (trimFinalNewlines o) true);
  normalizeEOL := Some (orDefault (normalizeEOL o) Lf);
  maxConsecutiveBlankLines := Some (orDefault (maxConsecutiveBlankLines o) 2%Z);
  ensureSpaceAroundOperators := Some (orDefault (ensureSpaceAroundOperators o) true);
  spaceAfterComma := Some (orDefault (spaceAfterComma o) true);
  spaceAroundColon := Some (orDefault (spaceAroundColon o) ColonRight);
  normalizeQuotes := Some (orDefault (normalizeQuotes o) QuotePreserve);
  keepIndentInsideStrings := Some (orDefault (keepIndentInsideStrings o) true);
  alignInlineComments := Some (orDefault (alignInlineComments o) true);
  alignEquals := Some (orDefault (alignEquals o) true);
  braceStyle := Some (orDefault (braceStyle o) Attach);
  newlineBeforeElse := Some (orDefault (newlineBeforeElse o) false);
  wrapCommentsAt := Some (orDefault (wrapCommentsAt o) 100%Z)
|}.

(** The string [l] holds no [c]. *)
Definition freeOf (c : char) (l : jsstring) : bool := negb (includes l c).

(** A code unit that is not a quote. *)
Definition notQuote (c : char) : bool := negb (isQuote c).

(** The code of a segment: nothing for a literal. *)
Definition codeOf (seg : Segment) : jsstring :=
  match seg with
  | Code text => text
  | Literal _ _ => []
  end.

(** The outcomes of [splitCodeAndComment] on the text [whole]. *)
Definition splitOutcome (whole code comment : jsstring) : Prop :=
  (comment = [] /\ code = whole)
  \/ (startsWith (str "//") comment = true /\ whole = code ++ comment)
  \/ (exists body rest,
         comment = str "/*" ++ body ++ str "*/" /\ whole = code ++ comment ++ rest).

(** [s] without its longest suffix of characters of the class [p]. *)
Definition stripTrailing (p : char -> bool) (s : jsstring) : jsstring :=
  rev (dropWhile p (rev s)).

(** The last code unit of a string, if any, is outside the class [p]. *)
Definition lastOutside (p : char -> bool) (s : jsstring) : bool :=
  match rev s with
  | c :: _ => negb (p c)
  | [] => true
  end.

(** The longest trimmed code among the lines that have a comment. *)
Definition maxCodeFrom (maxCode : nat) (lines : list jsstring) : nat :=
  fold_left (fun m l =>
               match snd (splitCodeAndComment l) with
               | [] => m
               | _ => Nat.max m (length (trimTrailingSpTab (fst (splitCodeAndComment l))))
               end)
            lines maxCode.

(** A line with its comment moved to the column after [maxCode]. *)
Definition alignComment (maxCode : nat) (l : jsstring) : jsstring :=
  match snd (splitCodeAndComment l) with
  | [] => l
  | comment =>
      let code := trimTrailingSpTab (fst (splitCodeAndComment l)) in
      code ++ repeatStr [SP] (S maxCode - length code) ++ comment
  end.

(** The test of the inner loop: a line that may enter a block. *)
Definition qualifiesEq (l : jsstring) : bool :=
  (negb (isBlank l)
   && (includes (stripStrings l) (ch "=") && negb (startsLineComment (stripStrings l))))%bool.

(** What a round of the outer loop keeps: the lines from [i] on and the
    lines that do not qualify are those of the input. *)
Definition alignEqualsInv (lines out : list jsstring) (i : nat) : Prop :=
  length out = length lines
  /\ forall j, i <= j \/ qualifiesEq (nth j lines []) = false ->
               nth j out [] = nth j lines [].

(** A line that is not longer than [width]. *)
Definition fits (width : Z) (l : jsstring) : Prop := (Z.of_nat (length l) <= width)%Z.

(** The tab and the blank, as classes. *)
Definition isTab (c : char) : bool := chEq c TAB.
Definition isBlankChar (c : char) : bool := chEq c SP.

(** No two blanks in a row. *)
Fixpoint noDoubleBlank (s : jsstring) : bool :=
  match s with
  | a :: rest =>
      (match rest with
       | b :: _ => negb (chEq a SP && chEq b SP)
       | [] => true
       end && noDoubleBlank rest)%bool
  | [] => true
  end.

(** The string does not start with a blank. *)
Definition headNotBlank (s : jsstring) : bool :=
  match s with
  | c :: _ => negb (chEq c SP)
  | [] => true
  end.

(** The comment wrapper is off: no column, or a column of 10 or less. *)
Definition wrapDisabled (opt : ExtraFormattingOptions) : Prop :=
  match wrapCommentsAt opt with
  | Some w => (w <= 10)%Z
  | None => True
  end.

(** An indentation made of blanks only, and not empty. *)
Definition blankOnlyIndent (l : jsstring) : bool :=
  (negb (includes (takeWhile isSpTab l) TAB)
   && negb (Nat.eqb (length (takeWhile isSpTab l)) 0))%bool.

(** Options that ask for tabs with a tab size of 0. *)
Definition tabsOfZero : ExtraFormattingOptions := {|
  tabSize := Some 0;
  insertSpaces := Some false;
  trimTrailingWhitespace := None;
  insertFinalNewline := None;
  trimFinalNewlines := None;
  normalizeEOL := None;
  maxConsecutiveBlankLines := None;
  ensureSpaceAroundOperators := None;
  spaceAfterComma := None;
  spaceAroundColon := None;
  normalizeQuotes := None;
  keepIndentInsideStrings := None;
  alignInlineComments := None;
  alignEquals := None;
  braceStyle := None;
  newlineBeforeElse := None;
  wrapCommentsAt := None
|}.

(** What [escapeHtml] makes of one code unit. *)
Definition escapeChar (c : char) : jsstring :=
  if chEq (ch "&") c then str "&amp;"
  else if chEq (ch "<") c then str "&lt;"
  else if chEq (ch ">") c then str "&gt;"
  else if chEq DQ c then str "&quot;"
  else if chEq SQ c then str "&#39;"
  else [c].

(** The characters that end a text node or an attribute value. *)
Definition htmlSpecial (c : char) : bool :=
  (chEq (ch "<") c || chEq (ch ">") c || chEq DQ c || chEq SQ c)%bool.

(** The class of [sanitize]. *)
Definition isAngle (c : char) : bool := oneOf (str "<>") c.

(* ========================================================================= *)
(** * Properties *)

(* ------------------------------------------------------------------------- *)
(** ** The blank-run limiter *)

Section BlankRuns.

Variable maxBlank : Z.

Lemma limitBlankFrom_app run pre rest :
  limitBlankFrom maxBlank run (pre ++ rest) =
  limitBlankFrom maxBlank run pre ++ limitBlankFrom maxBlank (runAfter run pre) rest.
Proof.
  revert run; induction pre as [|l pre IH]; intros run; simpl; [reflexivity|].
  destruct (isBlank l); simpl.
  - destruct (run + 1 <=? maxBlank)%Z; simpl; now rewrite IH.
  - now rewrite IH.
Qed.

Lemma runAfter_snoc run pre l :
  runAfter run (pre ++ [l]) = (if isBlank l then runAfter run pre + 1 else 0)%Z.
Proof.
  revert run; induction pre as [|x pre IH]; intros run; simpl; [reflexivity|].
  apply IH.
Qed.

Lemma runAfter_blanks run blanks :
  Forall (fun l => isBlank l = true) blanks ->
  runAfter run blanks = (run + Z.of_nat (length blanks))%Z.
Proof.
  intros H; revert run; induction H as [|l blanks Hl _ IH]; intros run; simpl.
  - lia.
  - rewrite Hl, IH. lia.
Qed.

(** A run of blank lines met with the counter at [run >= 0]: the first
    [maxBlank - run] of them are kept, each as the empty line. *)
Lemma limitBlankFrom_blanks run blanks :
  (0 <= run)%Z ->
  Forall (fun l => isBlank l = true) blanks ->
  limitBlankFrom maxBlank run blanks =
  repeat [] (Nat.min (length blanks) (Z.to_nat (maxBlank - run))).
Proof.
  intros Hrun H; revert run Hrun.
  induction H as [|l blanks Hl _ IH]; intros run Hrun; simpl; [reflexivity|].
  rewrite Hl.
  destruct (Z.leb_spec (run + 1) maxBlank) as [Hle|Hgt].
  - rewrite IH by lia.
    replace (Z.to_nat (maxBlank - run)) with (S (Z.to_nat (maxBlank - (run + 1)))) by lia.
    reflexivity.
  - rewrite IH by lia.
    replace (Z.to_nat (maxBlank - run)) with 0 by lia.
    replace (Z.to_nat (maxBlank - (run + 1))) with 0 by lia.
    now rewrite !Nat.min_0_r.
Qed.

Lemma limitBlankFrom_reset run l rest :
  isBlank l = false ->
  limitBlankFrom maxBlank run (l :: rest) = limitBlankFrom maxBlank 0 (l :: rest).
Proof. intros H; simpl; now rewrite H. Qed.

Lemma limitBlankFrom_nonBlank run lines :
  filter nonBlank (limitBlankFrom maxBlank run lines) = filter nonBlank lines.
Proof.
  revert run; induction lines as [|l lines IH]; intros run; simpl; [reflexivity|].
  unfold nonBlank at 2. destruct (isBlank l) eqn:Hl; simpl.
  - destruct (run + 1 <=? maxBlank)%Z; simpl; apply IH.
  - unfold nonBlank at 1. rewrite Hl. simpl. now rewrite IH.
Qed.

Lemma limitBlankFrom_kept_blank run lines l :
  In l (limitBlankFrom maxBlank run lines) -> isBlank l = true -> l = [].
Proof.
  revert run; induction lines as [|x lines IH]; intros run; simpl; [tauto|].
  destruct (isBlank x) eqn:Hx.
  - destruct (run + 1 <=? maxBlank)%Z; simpl.
    + intros [<-|Hin] Hl; [reflexivity|]. eapply IH; eauto.
    + apply IH.
  - simpl. intros [<-|Hin] Hl; [congruence|]. eapply IH; eauto.
Qed.

End BlankRuns.

(** C8.  The blank-run limiter keeps, of every maximal run of blank
    (white-space-only) lines, the first [maxBlank] ones and drops the others;
    the lines that are not blank are all kept, in order, and each of them
    puts the counter back to zero, so that the lines before and after a run
    are limited on their own; five blank lines under a limit of 2 leave
    exactly two. *)
Theorem limitBlankRuns_caps_runs :
  (forall maxBlank pre blanks post,
      endsNonBlank pre ->
      Forall (fun l => isBlank l = true) blanks ->
      startsNonBlank post ->
      limitBlankRuns (pre ++ blanks ++ post) maxBlank =
      limitBlankRuns pre maxBlank
        ++ repeat [] (Nat.min (length blanks) (Z.to_nat maxBlank))
        ++ limitBlankRuns post maxBlank)
  /\ (forall maxBlank lines,
         filter nonBlank (limitBlankRuns lines maxBlank) = filter nonBlank lines)
  /\ limitBlankRuns
       [str "a"; []; str "  "; []; [TAB]; []; str "b"] 2 = [str "a"; []; []; str "b"].
Proof.
  split; [|split].
  - intros maxBlank pre blanks post Hpre Hbl Hpost.
    unfold limitBlankRuns.
    rewrite limitBlankFrom_app.
    assert (Hrun : runAfter 0 pre = 0%Z).
    { destruct Hpre as [->|(p & l & -> & Hl)]; [reflexivity|].
      rewrite runAfter_snoc. now rewrite Hl. }
    rewrite Hrun, limitBlankFrom_app.
    rewrite (limitBlankFrom_blanks maxBlank 0 blanks) by (lia || assumption).
    rewrite Z.sub_0_r.
    do 2 f_equal.
    destruct Hpost as [->|(l & p & -> & Hl)]; [reflexivity|].
    now apply limitBlankFrom_reset.
  - intros maxBlank lines. apply limitBlankFrom_nonBlank.
  - vm_compute. reflexivity.
Qed.

Lemma limitBlankRuns_caps_runs_witness :
  limitBlankRuns ([str "a"] ++ [[]; [SP]; []] ++ [str "b"; []]) 1 =
  limitBlankRuns [str "a"] 1 ++ repeat [] (Nat.min 3 (Z.to_nat 1))
    ++ limitBlankRuns [str "b"; []] 1.
Proof.
  apply (proj1 limitBlankRuns_caps_runs 1%Z [str "a"] [[]; [SP]; []] [str "b"; []]).
  - right. exists [], (str "a"). split; reflexivity.
  - repeat constructor.
  - right. exists (str "b"), [[]]. split; reflexivity.
Defined.

(** Through the whole formatter: five blank lines between two lines, the
    default limit of 2. *)
Example blank_run_of_five :
  option_map (map newText)
    (provideFormattingEdits types_3_15
       (mkDocument (text_of [str "a"; []; []; [SP]; []; []; str "b"])) None)
  = Some [text_of [str "a"; []; []; str "b"; []]].
Proof. vm_compute. reflexivity. Qed.

(** C10.  A blank line that the limiter keeps is emitted as the empty line:
    after the pass no line is made of white space only and yet not empty.
    The limiter does not read [trimTrailingWhitespace]. *)
Theorem limitBlankRuns_blank_lines_empty :
  forall lines maxBlank l,
    In l (limitBlankRuns lines maxBlank) -> isBlank l = true -> l = [].
Proof.
  intros lines maxBlank l. apply limitBlankFrom_kept_blank.
Qed.

(** With [trimTrailingWhitespace] off, pass 1 leaves the indentation on a
    line of white space at depth 1; the limiter then emits the empty line. *)
Example blank_line_loses_indentation :
  passIndentAndSpacing (str "  ") 2 lspOptionsNoTrim [str "{"; [SP; TAB; SP]; str "}"]
    = Some [str "{"; str "  "; str "}"]
  /\ formatLines [str "{"; [SP; TAB; SP]; str "}"] lspOptionsNoTrim
     = Some [str "{"; []; str "}"].
Proof. split; vm_compute; reflexivity. Qed.

Lemma limitBlankRuns_blank_lines_empty_witness :
  In [] (limitBlankRuns [str "a"; [SP; TAB]; str "b"] 2) /\
  isBlank [] = true /\ @nil char = [].
Proof.
  split; [|split].
  - vm_compute. right. left. reflexivity.
  - reflexivity.
  - apply (limitBlankRuns_blank_lines_empty [str "a"; [SP; TAB]; str "b"] 2 []).
    + vm_compute. right. left. reflexivity.
    + reflexivity.
Defined.

(* ------------------------------------------------------------------------- *)
(** ** The quote normalizer *)

Lemma chEq_eq a b : chEq a b = true <-> a = b.
Proof. apply N.eqb_eq. Qed.

Lemma escapeQuote_absent q content :
  includes content q = false -> escapeQuote q content = content.
Proof.
  unfold escapeQuote, replaceAll, includes.
  induction content as [|c content IH]; simpl; [reflexivity|].
  intros H. apply orb_false_iff in H as [Hc Hrest].
  replace (chEq c q) with false.
  - now rewrite IH.
  - unfold chEq in *. now rewrite N.eqb_sym.
Qed.

Section RewriteStrings.

Variable fn : jsstring -> char -> jsstring.

Lemma rewriteStrings_code text rest :
  forallb (fun c => negb (isQuote c)) text = true ->
  rewriteStringsFrom fn None (text ++ rest) = text ++ rewriteStringsFrom fn None rest.
Proof.
  induction text as [|c text IH]; simpl; [reflexivity|].
  intros H. apply andb_true_iff in H as [Hc Htext].
  apply negb_true_iff in Hc. rewrite Hc. now rewrite IH.
Qed.

(** Reading a closed content up to its closing quote; by induction on a
    bound of the length, since an escape takes two code units. *)
Lemma rewriteStrings_content_bounded n q :
  forall content acc rest,
    length content <= n ->
    chEq q BSL = false ->
    closedContent q content = true ->
    rewriteStringsFrom fn (Some (q, acc)) (content ++ q :: rest) =
    fn (acc ++ content) q ++ rewriteStringsFrom fn None rest.
Proof.
  induction n as [|n IH]; intros content acc rest Hlen Hq Hclosed.
  - destruct content; [|simpl in Hlen; lia].
    simpl. rewrite Hq, app_nil_r.
    replace (chEq q q) with true by (symmetry; now apply chEq_eq).
    reflexivity.
  - destruct content as [|c content].
    + simpl. rewrite Hq, app_nil_r.
      replace (chEq q q) with true by (symmetry; now apply chEq_eq).
      reflexivity.
    + simpl in *. destruct (chEq c BSL) eqn:Hc.
      * destruct content as [|d content]; [discriminate|].
        simpl. rewrite IH by (simpl in Hlen; lia || assumption).
        now rewrite <- app_assoc.
      * apply andb_true_iff in Hclosed as [Hcq Hclosed].
        apply negb_true_iff in Hcq. rewrite Hcq.
        rewrite IH by (lia || assumption).
        now rewrite <- app_assoc.
Qed.

Lemma rewriteStrings_literal q content rest :
  isQuote q = true ->
  closedContent q content = true ->
  rewriteStringsFrom fn None (render (Literal q content) ++ rest) =
  fn content q ++ rewriteStringsFrom fn None rest.
Proof.
  intros Hq Hclosed. simpl. rewrite Hq.
  rewrite <- app_assoc. simpl.
  apply (rewriteStrings_content_bounded (length content)); auto.
  unfold isQuote in Hq. apply orb_true_iff in Hq as [H|H];
    apply chEq_eq in H; subst q; reflexivity.
Qed.

End RewriteStrings.

Lemma normalizeQuotesFn_requote target q content :
  normalizeQuotesFn target content q = render (requote target (Literal q content)).
Proof.
  destruct target; simpl; try reflexivity.
  - destruct (chEq q SQ && negb (includes content DQ))%bool eqn:H; [|reflexivity].
    apply andb_true_iff in H as [_ H]. apply negb_true_iff in H.
    simpl. now rewrite escapeQuote_absent.
  - destruct (chEq q DQ && negb (includes content SQ))%bool eqn:H; [|reflexivity].
    apply andb_true_iff in H as [_ H]. apply negb_true_iff in H.
    simpl. now rewrite escapeQuote_absent.
Qed.

(** On a line made of code and of closed string literals, the quote
    normalizer with target [double] re-emits every single-quoted literal
    whose content holds no double quote between double quotes, the content
    being the same code units (no escape is added), and leaves every other
    literal and all the code as they are; the same with the two quotes
    exchanged for target [single]. *)
Lemma normalizeQuotesInLine_requotes :
  forall target segs,
    forallb wellFormed segs = true ->
    normalizeQuotesInLine (renderLine segs) target = renderLine (map (requote target) segs).
Proof.
  intros target segs. unfold normalizeQuotesInLine, rewriteStrings, renderLine.
  induction segs as [|seg segs IH]; simpl; [reflexivity|].
  intros H. apply andb_true_iff in H as [Hseg Hsegs].
  destruct seg as [text|q content].
  - rewrite rewriteStrings_code by exact Hseg.
    rewrite IH by exact Hsegs.
    now destruct target.
  - simpl in Hseg. apply andb_true_iff in Hseg as [Hq Hclosed].
    rewrite rewriteStrings_literal by assumption.
    rewrite IH by exact Hsegs.
    now rewrite normalizeQuotesFn_requote.
Qed.

(** ['hi'] becomes ["hi"]; ['she said "hi"'] stays; and, for target
    [single], ["hi"] becomes ['hi']. *)
Lemma normalizeQuotesInLine_requotes_witness :
  normalizeQuotesInLine
    (renderLine [Code (str "f("); Literal SQ (str "hi"); Code (str ", ");
                 Literal SQ (str "she said " ++ dq "hi"); Code (str ")")]) QuoteDouble
  = str "f(" ++ dq "hi" ++ str ", 'she said " ++ dq "hi" ++ str "')".
Proof.
  rewrite (normalizeQuotesInLine_requotes QuoteDouble
             [Code (str "f("); Literal SQ (str "hi"); Code (str ", ");
              Literal SQ (str "she said " ++ dq "hi"); Code (str ")")]).
  - vm_compute. reflexivity.
  - vm_compute. reflexivity.
Defined.

(** C9.  A literal that the line leaves open is not re-emitted as the rule
    for literals says.  With target [double], the single-quoted literal of
    [x = 'she said "hi"], whose content holds a double quote, does not stay
    as it is: it comes out with a closing quote added.  The literal of
    [x = 'ab\], open after a backslash, comes out between double quotes
    with the backslash doubled, so the content is not the same.  The
    apostrophe of the comment [// don't] opens such a literal too.  The same
    happens with target [single] to a double-quoted literal left open, next
    to a closed literal that is re-emitted as the rule says. *)
Theorem normalizeQuotesInLine_open_literal_changed :
  normalizeQuotesInLine (str "x = 'she said " ++ dq "hi") QuoteDouble
  = str "x = 'she said " ++ dq "hi" ++ [SQ]
  /\ normalizeQuotesInLine (str "x = 'ab" ++ [BSL]) QuoteDouble
     = str "x = " ++ [DQ] ++ str "ab" ++ [BSL; BSL] ++ [DQ]
  /\ normalizeQuotesInLine (str "// don't") QuoteDouble = str "// don" ++ dq "t"
  /\ normalizeQuotesInLine (dq "hi" ++ str " + " ++ [DQ] ++ str "it's") QuoteSingle
     = str "'hi' + " ++ dq "it's"
  /\ renderLine (map (requote QuoteDouble)
                   [Code (str "x = "); Literal SQ (str "she said " ++ dq "hi")])
     = str "x = 'she said " ++ dq "hi" ++ [SQ].
Proof. repeat split; vm_compute; reflexivity. Qed.

Example normalizeQuotes_single :
  normalizeQuotesInLine (str "x = " ++ dq "hi" ++ str " + " ++ dq "it's") QuoteSingle
  = str "x = 'hi' + " ++ dq "it's".
Proof. vm_compute. reflexivity. Qed.

(* ------------------------------------------------------------------------- *)
(** ** The rewrite outside strings *)

Section RewriteOutside.

Variable fn : jsstring -> jsstring.

Lemma rewriteOutside_code chunk text rest :
  forallb (fun c => negb (isQuote c)) text = true ->
  rewriteOutsideFrom fn (InCode chunk) (text ++ rest) =
  rewriteOutsideFrom fn (InCode (chunk ++ text)) rest.
Proof.
  revert chunk; induction text as [|c text IH]; intros chunk; simpl.
  - now rewrite app_nil_r.
  - intros H. apply andb_true_iff in H as [Hc Htext].
    apply negb_true_iff in Hc. rewrite Hc, IH by exact Htext.
    now rewrite <- app_assoc.
Qed.

Lemma rewriteOutside_content_bounded n q :
  forall content rest,
    length content <= n ->
    chEq q BSL = false ->
    closedContent q content = true ->
    rewriteOutsideFrom fn (InStr q) (content ++ q :: rest) =
    content ++ q :: rewriteOutsideFrom fn (InCode []) rest.
Proof.
  induction n as [|n IH]; intros content rest Hlen Hq Hclosed.
  - destruct content; [|simpl in Hlen; lia].
    simpl. rewrite Hq.
    replace (chEq q q) with true by (symmetry; now apply chEq_eq).
    reflexivity.
  - destruct content as [|c content].
    + simpl. rewrite Hq.
      replace (chEq q q) with true by (symmetry; now apply chEq_eq).
      reflexivity.
    + simpl in *. destruct (chEq c BSL) eqn:Hc.
      * destruct content as [|d content]; [discriminate|].
        simpl. now rewrite IH by (simpl in Hlen; lia || assumption).
      * apply andb_true_iff in Hclosed as [Hcq Hclosed].
        apply negb_true_iff in Hcq. rewrite Hcq.
        now rewrite IH by (lia || assumption).
Qed.

(** Pass 1 is safe for strings: on a line of code and closed literals the
    rewrite touches the code only. *)
Lemma rewriteOutsideStrings_keeps_literals segs :
  forallb wellFormed segs = true ->
  forall chunk,
    rewriteOutsideFrom fn (InCode chunk) (renderLine segs) = rewriteSegments fn chunk segs.
Proof.
  unfold renderLine.
  induction segs as [|seg segs IH]; simpl; intros H chunk; [reflexivity|].
  apply andb_true_iff in H as [Hseg Hsegs].
  destruct seg as [text|q content]; simpl in *.
  - rewrite rewriteOutside_code by exact Hseg. now apply IH.
  - apply andb_true_iff in Hseg as [Hq Hclosed].
    rewrite Hq. rewrite <- app_assoc. simpl.
    rewrite (rewriteOutside_content_bounded (length content)); auto.
    + rewrite IH by exact Hsegs. now rewrite <- app_assoc.
    + unfold isQuote in Hq. apply orb_true_iff in Hq as [H|H];
        apply chEq_eq in H; subst q; reflexivity.
Qed.

End RewriteOutside.

(* ------------------------------------------------------------------------- *)
(** ** The indentation tracker *)

Lemma takeWhile_dropWhile p s : takeWhile p s ++ dropWhile p s = s.
Proof.
  induction s as [|c s IH]; simpl; [reflexivity|].
  destruct (p c); simpl; [now rewrite IH|reflexivity].
Qed.

Lemma takeWhile_all p s : forallb p (takeWhile p s) = true.
Proof.
  induction s as [|c s IH]; simpl; [reflexivity|].
  destruct (p c) eqn:H; simpl; [now rewrite H|reflexivity].
Qed.

Lemma skipn_takeWhile p s : skipn (length (takeWhile p s)) s = dropWhile p s.
Proof.
  induction s as [|c s IH]; simpl; [reflexivity|].
  destruct (p c); simpl; [exact IH|reflexivity].
Qed.

Lemma isSpTab_plain c :
  isSpTab c = true ->
  isQuote c = false /\ isOpenBracket c = false /\ isCloseBracket c = false.
Proof.
  unfold isSpTab. intros H. apply orb_true_iff in H as [H|H];
    apply chEq_eq in H; subst c; repeat split; reflexivity.
Qed.

(** Leading blanks and tabs weigh nothing in the bracket count. *)
Lemma netBracketDelta_lead w body :
  forallb isSpTab w = true -> netBracketDelta (w ++ body) = netBracketDelta body.
Proof.
  unfold netBracketDelta, stripStrings, countIf.
  induction w as [|c w IH]; simpl; [reflexivity|].
  intros H. apply andb_true_iff in H as [Hc Hw].
  destruct (isSpTab_plain c Hc) as (Hq & Ho & Hcl).
  rewrite Hq. simpl. rewrite Ho, Hcl. now apply IH.
Qed.

Lemma repeatStr_all p c n : p c = true -> forallb p (repeatStr [c] n) = true.
Proof.
  intros H. unfold repeatStr. induction n as [|n IH]; simpl; [reflexivity|].
  now rewrite H.
Qed.

Lemma expandTabs_all tabSizeV lead :
  forallb isSpTab lead = true -> forallb isSpTab (expandTabs tabSizeV lead) = true.
Proof.
  unfold expandTabs, replaceAll.
  induction lead as [|c lead IH]; simpl; [reflexivity|].
  intros H. apply andb_true_iff in H as [Hc Hlead].
  destruct (chEq c TAB); simpl.
  - rewrite forallb_app, IH by exact Hlead.
    now rewrite repeatStr_all.
  - now rewrite Hc, IH.
Qed.

(** The normalization of the indentation changes leading blanks and tabs
    only: the text after them and the bracket count stay. *)
Lemma normalizeIndent_shape line indentUnit tabSizeV useSpaces raw :
  normalizeIndent line indentUnit tabSizeV useSpaces = Some raw ->
  exists w, forallb isSpTab w = true /\ raw = w ++ dropWhile isSpTab line.
Proof.
  unfold normalizeIndent. rewrite skipn_takeWhile.
  pose proof (takeWhile_all isSpTab line) as Hlead.
  destruct useSpaces.
  - intros [= <-]. eexists; split; [|reflexivity]. now apply expandTabs_all.
  - destruct tabSizeV as [|k].
    + destruct (_ || _)%bool; intros [= <-]. now exists [].
    + intros [= <-]. rewrite app_assoc. eexists; split; [|reflexivity].
      rewrite forallb_app, !repeatStr_all; reflexivity.
Qed.

Lemma normalizeIndent_delta line indentUnit tabSizeV useSpaces raw :
  normalizeIndent line indentUnit tabSizeV useSpaces = Some raw ->
  netBracketDelta raw = netBracketDelta line.
Proof.
  intros H. apply normalizeIndent_shape in H as (w & Hw & ->).
  rewrite netBracketDelta_lead by exact Hw.
  rewrite <- (takeWhile_dropWhile isSpTab line) at 2.
  now rewrite netBracketDelta_lead by apply takeWhile_all.
Qed.

(** The only failure: tabs asked for, a tab size of zero. *)
Lemma normalizeIndent_total line indentUnit tabSizeV useSpaces :
  useSpaces = true \/ tabSizeV <> 0 ->
  exists raw, normalizeIndent line indentUnit tabSizeV useSpaces = Some raw.
Proof.
  unfold normalizeIndent. intros [->|H]; [eexists; reflexivity|].
  destruct useSpaces; [eexists; reflexivity|].
  destruct tabSizeV; [congruence|eexists; reflexivity].
Qed.

Section IndentTracker.

Variables (indentUnit : jsstring) (tabSizeV : nat) (opt : ExtraFormattingOptions).

Let loop := passLoop indentUnit tabSizeV opt.
Let useSpaces := orDefault (insertSpaces opt) true.

Lemma passLoop_app st pre rest :
  loop st (pre ++ rest) =
  match loop st pre with
  | Some st' => loop st' rest
  | None => None
  end.
Proof.
  subst loop. revert st; induction pre as [|l pre IH]; intros st; simpl; [reflexivity|].
  destruct (passStep indentUnit tabSizeV opt st l); [apply IH|reflexivity].
Qed.

(** The counter after the loop is the counter before it plus the deltas
    of the lines: nothing clamps it. *)
Lemma passLoop_level src :
  forall out lvl out' lvl',
    loop (out, lvl) src = Some (out', lvl') ->
    lvl' = (lvl + sumDeltas src)%Z /\ length out' = length out + length src.
Proof.
  subst loop. induction src as [|l src IH]; intros out lvl out' lvl'; simpl.
  - intros [= <- <-]. unfold sumDeltas; simpl. split; lia.
  - unfold passStep.
    destruct (normalizeIndent l indentUnit tabSizeV _) as [raw|] eqn:Hraw; [|discriminate].
    intros H. apply IH in H as [-> ->].
    rewrite (normalizeIndent_delta _ _ _ _ _ Hraw).
    rewrite length_app. unfold sumDeltas; simpl. split; lia.
Qed.

Lemma passLoop_total src :
  useSpaces = true \/ tabSizeV <> 0 ->
  forall st, exists st', loop st src = Some st'.
Proof.
  subst loop useSpaces. intros H.
  induction src as [|l src IH]; intros [out lvl]; simpl; [eexists; reflexivity|].
  destruct (normalizeIndent_total l indentUnit tabSizeV _ H) as [raw Hraw].
  rewrite Hraw. apply IH.
Qed.

End IndentTracker.

Lemma isCloseBracket_In c : isCloseBracket c = true <-> In c (str "}])").
Proof.
  unfold isCloseBracket, oneOf. rewrite existsb_exists. split.
  - intros (x & Hin & Hx). apply chEq_eq in Hx. now subst.
  - intros Hin. exists c. split; [exact Hin|now apply chEq_eq].
Qed.

(* ------------------------------------------------------------------------- *)
(** ** The entry point: no edit, one edit for the whole document, or an error *)

Lemma strEq_eq a b : strEq a b = true <-> a = b.
Proof.
  revert b; induction a as [|x a IH]; intros [|y b]; simpl; try (split; congruence).
  rewrite andb_true_iff, chEq_eq, IH. split.
  - intros [-> ->]. reflexivity.
  - intros [= -> ->]. split; reflexivity.
Qed.

(** The passes fail only through [normalizeIndent]. *)
Lemma formatLines_total src opt :
  orDefault (insertSpaces opt) true = true \/ orDefault (tabSize opt) 2 <> 0 ->
  exists lines, formatLines src opt = Some lines.
Proof.
  intros H. unfold formatLines, passIndentAndSpacing.
  match goal with
  | |- context [passLoop ?u ?t opt _ src] =>
      destruct (passLoop_total u t opt src H ([], 0%Z)) as [st Hst]
  end.
  rewrite Hst. simpl. eexists; reflexivity.
Qed.

(** [fullRange] raises with the library from 3.16 on, whatever the
    document: [Number.MAX_SAFE_INTEGER] is no [uinteger]. *)
Lemma fullRange_types_3_16 doc : fullRange types_3_16 doc = None.
Proof.
  unfold fullRange, Range_create, Position_create. cbn [Position_is types_3_16 character].
  change (MAX_SAFE_INTEGER <=? uinteger_MAX_VALUE)%N with false.
  now rewrite !andb_false_r.
Qed.

(** With the library before 3.16 it returns the range of the whole
    document. *)
Lemma fullRange_types_3_15 doc : fullRange types_3_15 doc = Some (documentRange doc).
Proof.
  unfold fullRange, Range_create, Position_create, documentRange, lastLineText.
  cbn [Position_is types_3_15 andb]. now rewrite Nat.max_0_l.
Qed.

(** Whenever it returns, it returns that range. *)
Lemma fullRange_Some lib doc r : fullRange lib doc = Some r -> r = documentRange doc.
Proof.
  unfold fullRange, Range_create, Position_create, documentRange, lastLineText.
  rewrite Nat.max_0_l.
  destruct (Position_is lib _ && Position_is lib _)%bool; [|discriminate].
  destruct (Position_is lib _ && Position_is lib _)%bool; [|discriminate].
  now intros [= <-].
Qed.

(** C6.  When the passes give the lines [outLines], the text is these lines
    joined under the target end-of-line convention, then (if asked) its
    final run of line feeds cut to one, then (if asked and missing) a final
    line feed added.  [provideFormattingEdits] returns no edit exactly when
    this text is the original text split and joined again under the same
    convention.  Otherwise it calls [fullRange]: when that returns, the
    result is one edit, which replaces the range of the whole document (from
    the head of line 0 to the end of the text of the last line) by this
    text; when that raises, so does [provideFormattingEdits].  With the
    library before 3.16 [fullRange] returns; from 3.16 on it raises on every
    document, so that every text that formatting changes makes the call
    raise, as ["f( a,b )"] does, instead of giving its one edit. *)
Theorem provideFormattingEdits_edit_or_raise :
  (forall lib doc options outLines,
      let opts := orDefault options defaultOptions in
      let eol := orDefault (normalizeEOL opts) Lf in
      formatLines (splitLines (getText doc)) opts = Some outLines ->
      let joined := joinWithEOL outLines eol in
      let trimmed := if truthy (trimFinalNewlines opts)
                     then replaceAll rxFinalNewlines joined else joined in
      let text := if (truthy (insertFinalNewline opts) && negb (endsWith trimmed [LF]))%bool
                  then trimmed ++ [LF] else trimmed in
      let orig := joinWithEOL (splitLines (getText doc)) eol in
      (provideFormattingEdits lib doc options = Some [] <-> text = orig)
      /\ (text <> orig ->
          (fullRange lib doc = None /\ provideFormattingEdits lib doc options = None)
          \/ (fullRange lib doc = Some (documentRange doc)
              /\ provideFormattingEdits lib doc options =
                 Some [ {| range := documentRange doc; newText := text |} ]))
      /\ (text <> orig ->
          provideFormattingEdits types_3_15 doc options =
          Some [ {| range := documentRange doc; newText := text |} ])
      /\ (text <> orig -> provideFormattingEdits types_3_16 doc options = None))
  /\ (forall doc options,
         let opts := orDefault options defaultOptions in
         orDefault (insertSpaces opts) true = true \/ orDefault (tabSize opts) 2 <> 0 ->
         exists outLines edits,
           formatLines (splitLines (getText doc)) opts = Some outLines
           /\ provideFormattingEdits types_3_15 doc options = Some edits
           /\ length edits <= 1)
  /\ provideFormattingEdits types_3_16 (mkDocument (str "f( a,b )")) None = None
  /\ provideFormattingEdits types_3_15 (mkDocument (str "f( a,b )")) None =
     Some [ {| range := {| range_start := {| line := 0; character := 0%N |};
                           range_end := {| line := 0; character := 8%N |} |};
               newText := str "f( a, b )" ++ [LF] |} ]
  /\ provideFormattingEdits types_3_15 (mkDocument (text_of [str "a=1"; str "bb"])) None =
     Some [ {| range := {| range_start := {| line := 0; character := 0%N |};
                           range_end := {| line := 1; character := 2%N |} |};
               newText := text_of [str "a = 1"; str "bb"; []] |} ].
Proof.
  assert (Hgen : forall lib doc options outLines,
      let opts := orDefault options defaultOptions in
      let eol := orDefault (normalizeEOL opts) Lf in
      formatLines (splitLines (getText doc)) opts = Some outLines ->
      let joined := joinWithEOL outLines eol in
      let trimmed := if truthy (trimFinalNewlines opts)
                     then replaceAll rxFinalNewlines joined else joined in
      let text := if (truthy (insertFinalNewline opts) && negb (endsWith trimmed [LF]))%bool
                  then trimmed ++ [LF] else trimmed in
      let orig := joinWithEOL (splitLines (getText doc)) eol in
      (provideFormattingEdits lib doc options = Some [] <-> text = orig)
      /\ (text <> orig ->
          provideFormattingEdits lib doc options =
          match fullRange lib doc with
          | None => None
          | Some r => Some [ {| range := r; newText := text |} ]
          end)).
  { intros lib doc options outLines opts eol Hlines joined trimmed text orig.
    unfold provideFormattingEdits, formattedText, normalizedOrig.
    fold opts. rewrite Hlines. fold eol joined trimmed text orig.
    destruct (strEq orig text) eqn:Heq.
    - apply strEq_eq in Heq. split; [split; congruence|congruence].
    - assert (text <> orig).
      { intros ->. assert (strEq orig orig = true) by now apply strEq_eq. congruence. }
      split; [|reflexivity].
      split; [|contradiction].
      destruct (fullRange lib doc); discriminate. }
  split; [|split; [|split; [|split]; vm_compute; reflexivity]].
  - intros lib doc options outLines opts eol Hlines joined trimmed text orig.
    destruct (Hgen lib doc options outLines Hlines) as [Hiff Hne].
    destruct (Hgen types_3_15 doc options outLines Hlines) as [_ H15].
    destruct (Hgen types_3_16 doc options outLines Hlines) as [_ H16].
    fold opts eol joined trimmed text orig in Hiff, Hne, H15, H16.
    split; [exact Hiff|]. split; [|split].
    + intros H. specialize (Hne H).
      destruct (fullRange lib doc) as [r|] eqn:Hr.
      * right. apply fullRange_Some in Hr as Hd. subst r. split; [reflexivity|exact Hne].
      * left. split; [reflexivity|exact Hne].
    + intros H. rewrite (H15 H), fullRange_types_3_15. reflexivity.
    + intros H. rewrite (H16 H), fullRange_types_3_16. reflexivity.
  - intros doc options opts H.
    destruct (formatLines_total (splitLines (getText doc)) opts H) as [outLines Hlines].
    exists outLines.
    unfold provideFormattingEdits, formattedText. fold opts. rewrite Hlines.
    rewrite fullRange_types_3_15.
    match goal with |- context [strEq ?a ?b] => destruct (strEq a b) end;
      eexists; (split; [reflexivity|split; [reflexivity|simpl; lia]]).
Qed.

Lemma provideFormattingEdits_edit_or_raise_witness :
  provideFormattingEdits types_3_16 (mkDocument (str "f( a,b )")) None = None
  /\ provideFormattingEdits types_3_15 (mkDocument (str "f( a,b )")) None =
     Some [ {| range := documentRange (mkDocument (str "f( a,b )"));
               newText := str "f( a, b )" ++ [LF] |} ].
Proof.
  destruct (proj1 provideFormattingEdits_edit_or_raise types_3_16
              (mkDocument (str "f( a,b )")) None [str "f( a, b )"])
    as (_ & _ & H15 & H16).
  - vm_compute. reflexivity.
  - split.
    + apply H16. vm_compute. discriminate.
    + rewrite H15; [vm_compute; reflexivity|vm_compute; discriminate].
Defined.

(** The texts of the edits do not depend on the library: whenever the call
    returns, with any library, its edits carry the texts of [editTexts]; and
    [editTexts] has no value only when the passes raise. *)
Lemma editTexts_any_library lib text options :
  (forall edits,
      provideFormattingEdits lib (mkDocument text) options = Some edits ->
      editTexts text options = Some (map newText edits))
  /\ (editTexts text options = None <->
      formattedText text (orDefault options defaultOptions) = None).
Proof.
  unfold editTexts, provideFormattingEdits. rewrite fullRange_types_3_15.
  cbn [getText mkDocument].
  destruct (formattedText text (orDefault options defaultOptions)) as [t|].
  - destruct (strEq _ _).
    + split; [now intros ? [= <-]|split; discriminate].
    + split; [|split; discriminate].
      destruct (fullRange lib _); [now intros ? [= <-]|discriminate].
  - split; [discriminate|split; reflexivity].
Qed.

(** A text that is already in its final form gets no edit. *)
Example provideFormattingEdits_no_edit :
  provideFormattingEdits types_3_16 (mkDocument (text_of [str "f(a, b)"; str "x"; []])) None
  = Some [].
Proof. vm_compute. reflexivity. Qed.

(** The final run of line feeds is cut to one. *)
Example trimFinalNewlines_example :
  replaceAll rxFinalNewlines (text_of [str "a"; []; str "b"; []; []; []])
  = text_of [str "a"; []; str "b"; []].
Proof. vm_compute. reflexivity. Qed.

(* ------------------------------------------------------------------------- *)
(** ** Where the formatter departs from its description *)

(** C1.  Formatting is not idempotent.  With the default options the text
    [m['k=v'] = 1], [y = 2] is formatted into a text that a second run
    changes again: the first ['='] of the first line is inside the string,
    pass 1 leaves the blanks that the first alignment put around it, and the
    second alignment measures a wider left part. *)
Theorem formatting_twice_differs :
  let t0 := text_of [str "m['k=v'] = 1"; str "y = 2"] in
  let t1 := text_of [str "m['k  = v'] = 1"; str "y   = 2"; []] in
  let t2 := text_of [str "m['k  = v'] = 1"; str "y     = 2"; []] in
  editTexts t0 None = Some [t1]
  /\ editTexts t1 None = Some [t2]
  /\ t2 <> t1.
Proof.
  split; [|split]; [vm_compute; reflexivity ..|vm_compute; discriminate].
Qed.

(** Without operator spacing no string is needed: two runs on [x=1],
    [longname=2] give two different texts, and a third run gives the first
    one back. *)
Example formatting_oscillates :
  let t0 := text_of [str "x=1"; str "longname=2"] in
  let t1 := text_of [str "x        = 1"; str "longname  = 2"; []] in
  let t2 := text_of [str "x  = 1"; str "longname  = 2"; []] in
  editTexts t0 (Some noOperatorSpacing) = Some [t1]
  /\ editTexts t1 (Some noOperatorSpacing) = Some [t2]
  /\ editTexts t2 (Some noOperatorSpacing) = Some [t1].
Proof. repeat split; vm_compute; reflexivity. Qed.

(** C2.  The spacing passes keep the literal of [let s = "a,b:c{d}"], but
    the equals alignment splits a line at its first ['='] even when it is
    inside a string: on [m["k=v"] = 1], [y = 2] the literal ["k=v"] comes
    out as ["k  = v"]. *)
Theorem alignEquals_rewrites_string_content :
  editTexts (str "let s = " ++ dq "a,b:c{d}") None
    = Some [str "let s = " ++ dq "a,b:c{d}" ++ [LF]]
  /\ alignEqualsBlocks [str "m[" ++ dq "k=v" ++ str "] = 1"; str "y = 2"]
     = [str "m[" ++ dq "k  = v" ++ str "] = 1"; str "y   = 2"]
  /\ editTexts (text_of [str "m[" ++ dq "k=v" ++ str "] = 1"; str "y = 2"]) None
     = Some [text_of [str "m[" ++ dq "k  = v" ++ str "] = 1"; str "y   = 2"; []]].
Proof. repeat split; vm_compute; reflexivity. Qed.

(** C3.  The spacing passes rewrite comments: they protect strings only.
    With the default options [a = 1 // x,y] becomes [a = 1 / / x, y]: the
    operator pass spaces the two slashes, the comma pass the comma. *)
Theorem spacing_rewrites_comments :
  ensureSpacesAroundOpsOutsideStrings (str "a = 1 // x,y") = str "a = 1 / / x,y"
  /\ ensureSpaceAfterCommasOutsideStrings (str "a = 1 // x,y") = str "a = 1 // x, y"
  /\ ensureSpaceAroundColonOutsideStrings (str "a = 1 /* k:v */") ColonRight
     = str "a = 1 /* k: v */"
  /\ editTexts (str "a = 1 // x,y") None = Some [str "a = 1 / / x, y" ++ [LF]].
Proof. repeat split; vm_compute; reflexivity. Qed.

(** C4.  Absent fields do not all take their default.  Options that give
    only [tabSize] and [insertSpaces] leave [a=1] and [f(a,b)] without an
    edit (no operator spacing, no comma spacing, no final newline), while
    the same options completed with the defaults, which are the default
    value of the parameter, give the edits [a = 1] and [f(a, b)]. *)
Theorem absent_options_not_defaulted :
  withDefaults lspOptions = defaultOptions
  /\ editTexts (str "a=1") (Some lspOptions) = Some []
  /\ editTexts (str "a=1") (Some (withDefaults lspOptions)) = Some [str "a = 1" ++ [LF]]
  /\ editTexts (str "f(a,b)") (Some lspOptions) = Some []
  /\ editTexts (str "f(a,b)") (Some (withDefaults lspOptions)) = Some [str "f(a, b)" ++ [LF]].
Proof. repeat split; vm_compute; reflexivity. Qed.

(** C5.  The equals alignment does not bring the ['='] signs of a block to
    one column.  On [x = 1], [longname = 2] the widest left part still gets
    one blank of padding before [" = "]: the lines come out as
    [x        = 1] and [longname  = 2], the signs at columns 9 and 10, two
    blanks before the second.  A blank line between the two lines does keep
    them apart. *)
Theorem alignEquals_misaligned :
  alignEqualsBlocks [str "x = 1"; str "longname = 2"]
    = [str "x        = 1"; str "longname  = 2"]
  /\ editTexts (text_of [str "x = 1"; str "longname = 2"]) None
     = Some [text_of [str "x        = 1"; str "longname  = 2"; []]]
  /\ map (fun l => indexOf (str "=") l) (alignEqualsBlocks [str "x = 1"; str "longname = 2"])
     = [Some 9; Some 10]
  /\ alignEqualsBlocks [str "x = 1"; []; str "longname = 2"]
     = [str "x = 1"; []; str "longname = 2"].
Proof. repeat split; vm_compute; reflexivity. Qed.

(* ========================================================================= *)
(** * Further properties of the code *)

(* ------------------------------------------------------------------------- *)
(** ** The replacement driver *)

Lemma replaceFrom_skip m k s : replaceFrom m k s = replaceFrom m 0 (skipn k s).
Proof.
  revert k; induction s as [|c s IH]; intros [|k]; simpl; try reflexivity.
  apply IH.
Qed.

Lemma replaceAll_cons m c s :
  replaceAll m (c :: s) =
  match m (c :: s) with
  | Some (rep, n) => rep ++ replaceAll m (skipn (Nat.pred n) s)
  | None => c :: replaceAll m s
  end.
Proof.
  unfold replaceAll; simpl.
  destruct (m (c :: s)) as [[rep n]|]; [|reflexivity].
  now rewrite replaceFrom_skip.
Qed.

(** A class of single characters: the replacement is character-wise. *)
Lemma replaceAll_rxChar p rep s :
  replaceAll (rxChar p rep) s = flat_map (fun c => if p c then rep c else [c]) s.
Proof.
  induction s as [|c s IH]; [reflexivity|].
  rewrite replaceAll_cons. simpl.
  destruct (p c); simpl; now rewrite IH.
Qed.

(** A matcher that never fires leaves the string as it is. *)
Lemma replaceAll_none m s :
  (forall k, m (skipn k s) = None) -> replaceAll m s = s.
Proof.
  induction s as [|c s IH]; intros H; [reflexivity|].
  rewrite replaceAll_cons. pose proof (H 0) as H0. simpl in H0. rewrite H0.
  f_equal. apply IH. intros k. apply (H (S k)).
Qed.

(* ------------------------------------------------------------------------- *)
(** ** Lines and ends of lines *)

Arguments chEq : simpl never.

Lemma freeOf_cons c x l : freeOf c (x :: l) = (negb (chEq c x) && freeOf c l)%bool.
Proof. unfold freeOf, includes. simpl. apply negb_orb. Qed.

Lemma freeOf_app c a b : freeOf c (a ++ b) = (freeOf c a && freeOf c b)%bool.
Proof. unfold freeOf, includes. rewrite existsb_app. apply negb_orb. Qed.

Lemma chEq_refl c : chEq c c = true.
Proof. now apply chEq_eq. Qed.

Lemma chEq_sym a b : chEq a b = chEq b a.
Proof. apply N.eqb_sym. Qed.

Lemma includes_app a b c : includes (a ++ b) c = (includes a c || includes b c)%bool.
Proof. unfold includes. apply existsb_app. Qed.

Lemma splitOnFrom_nonempty c cur s : splitOnFrom c cur s <> [].
Proof.
  revert cur; induction s as [|x s IH]; intros cur; simpl; [discriminate|].
  destruct (chEq x c); [discriminate|apply IH].
Qed.

Lemma join_cons sep p rest :
  rest <> [] -> join sep (p :: rest) = p ++ sep ++ join sep rest.
Proof. destruct rest; [congruence|reflexivity]. Qed.

Lemma join_splitOnFrom c cur s : join [c] (splitOnFrom c cur s) = cur ++ s.
Proof.
  revert cur; induction s as [|x s IH]; intros cur; simpl.
  - now rewrite app_nil_r.
  - destruct (chEq x c) eqn:Hx.
    + rewrite join_cons by apply splitOnFrom_nonempty.
      rewrite IH. apply chEq_eq in Hx. now subst.
    + rewrite IH. now rewrite <- app_assoc.
Qed.

Lemma splitOnFrom_free c cur s :
  freeOf c cur = true -> Forall (fun l => freeOf c l = true) (splitOnFrom c cur s).
Proof.
  revert cur; induction s as [|x s IH]; intros cur Hcur; simpl.
  - now constructor.
  - destruct (chEq x c) eqn:Hx.
    + constructor; [exact Hcur|]. now apply IH.
    + apply IH. rewrite freeOf_app, freeOf_cons, Hcur, chEq_sym, Hx. reflexivity.
Qed.

Lemma splitOnFrom_app_free c cur l rest :
  freeOf c l = true -> splitOnFrom c cur (l ++ rest) = splitOnFrom c (cur ++ l) rest.
Proof.
  revert cur; induction l as [|x l IH]; intros cur H; simpl.
  - now rewrite app_nil_r.
  - rewrite freeOf_cons in H. apply andb_true_iff in H as [Hx Hl].
    apply negb_true_iff in Hx. rewrite chEq_sym, Hx. rewrite IH by exact Hl.
    now rewrite <- app_assoc.
Qed.

Lemma splitOn_join c lines :
  lines <> [] ->
  Forall (fun l => freeOf c l = true) lines ->
  splitOn c (join [c] lines) = lines.
Proof.
  unfold splitOn. intros Hne H.
  induction H as [|l lines Hl Hrest IH]; [congruence|].
  destruct lines as [|l2 lines].
  - simpl. rewrite <- (app_nil_r l) at 1.
    now rewrite splitOnFrom_app_free.
  - rewrite join_cons by discriminate.
    rewrite splitOnFrom_app_free by exact Hl. simpl. rewrite chEq_refl.
    f_equal. apply IH. discriminate.
Qed.

Lemma crlfToLf_cons c t :
  crlfToLf (c :: t) =
  if (chEq c CR && startsWith [LF] t)%bool then LF :: crlfToLf (tl t)
  else c :: crlfToLf t.
Proof.
  pose (m := fun s : jsstring => if startsWith [CR; LF] s then Some ([LF], 2) else None).
  change (replaceAll m (c :: t) =
          if (chEq c CR && startsWith [LF] t)%bool then LF :: replaceAll m (tl t)
          else c :: replaceAll m t).
  rewrite replaceAll_cons.
  assert (Hm : m (c :: t) =
               if (chEq c CR && startsWith [LF] t)%bool then Some ([LF], 2) else None).
  { subst m. cbv beta.
    change (startsWith [CR; LF] (c :: t)) with (chEq CR c && startsWith [LF] t)%bool.
    now rewrite (chEq_sym CR c). }
  rewrite Hm. destruct (chEq c CR && startsWith [LF] t)%bool; [|reflexivity].
  destruct t; reflexivity.
Qed.

Lemma lfToCrlf_cons c t :
  lfToCrlf (c :: t) = if chEq c LF then CR :: LF :: lfToCrlf t else c :: lfToCrlf t.
Proof.
  pose (m := fun s : jsstring => if startsWith [LF] s then Some ([CR; LF], 1) else None).
  change (replaceAll m (c :: t) =
          if chEq c LF then CR :: LF :: replaceAll m t else c :: replaceAll m t).
  rewrite replaceAll_cons.
  assert (Hm : m (c :: t) = if chEq c LF then Some ([CR; LF], 1) else None).
  { subst m. cbv beta.
    change (startsWith [LF] (c :: t)) with (chEq LF c && true)%bool.
    now rewrite andb_true_r, (chEq_sym LF c). }
  rewrite Hm. destruct (chEq c LF); reflexivity.
Qed.

Lemma lfToCrlf_head t : startsWith [LF] (lfToCrlf t) = false.
Proof.
  destruct t as [|c t]; [reflexivity|].
  rewrite lfToCrlf_cons. destruct (chEq c LF) eqn:Hc; [reflexivity|].
  cbn [startsWith]. now rewrite (chEq_sym LF c), Hc.
Qed.

(** Turning the line feeds into pairs and the pairs back gives the text. *)
Lemma crlfToLf_lfToCrlf t : crlfToLf (lfToCrlf t) = t.
Proof.
  induction t as [|c t IH]; [reflexivity|].
  rewrite lfToCrlf_cons. destruct (chEq c LF) eqn:Hc.
  - rewrite crlfToLf_cons. simpl. rewrite IH.
    apply chEq_eq in Hc. now subst.
  - rewrite crlfToLf_cons, lfToCrlf_head, andb_false_r. now rewrite IH.
Qed.

Lemma crlfToLf_no_CR t : freeOf CR t = true -> crlfToLf t = t.
Proof.
  induction t as [|c t IH]; intros H; [reflexivity|].
  rewrite freeOf_cons in H. apply andb_true_iff in H as [Hc Ht].
  apply negb_true_iff in Hc.
  rewrite crlfToLf_cons. rewrite chEq_sym, Hc. simpl.
  now rewrite IH.
Qed.

Lemma join_free c sep lines :
  freeOf c sep = true ->
  Forall (fun l => freeOf c l = true) lines ->
  freeOf c (join sep lines) = true.
Proof.
  intros Hsep H. induction H as [|l lines Hl _ IH]; [reflexivity|].
  destruct lines as [|l2 lines]; [exact Hl|].
  rewrite join_cons by discriminate.
  now rewrite !freeOf_app, Hl, Hsep, IH.
Qed.

(** X1.  [splitLines] loses nothing but the carriage return of a CR LF
    pair: its lines joined by line feeds are the text with every such pair
    turned into a line feed; there is always at least one line, and no line
    holds a line feed. *)
Theorem splitLines_join text :
  join [LF] (splitLines text) = crlfToLf text
  /\ splitLines text <> []
  /\ Forall (fun l => freeOf LF l = true) (splitLines text).
Proof.
  unfold splitLines, splitOn. split; [|split].
  - apply join_splitOnFrom.
  - apply splitOnFrom_nonempty.
  - now apply splitOnFrom_free.
Qed.

(** X2.  Joining and splitting again gives the lines back: under the CR LF
    convention for every non-empty list of lines without a line feed, under
    the LF convention when the lines hold no carriage return either (one
    that ends a line would pair with the separator and vanish). *)
Theorem splitLines_joinWithEOL mode lines :
  lines <> [] ->
  Forall (fun l => freeOf LF l = true) lines ->
  (mode = Lf -> Forall (fun l => freeOf CR l = true) lines) ->
  splitLines (joinWithEOL lines mode) = lines.
Proof.
  intros Hne Hlf Hcr. unfold splitLines, joinWithEOL.
  destruct mode.
  - rewrite crlfToLf_no_CR; [now apply splitOn_join|].
    apply join_free; [reflexivity|]. now apply Hcr.
  - rewrite crlfToLf_lfToCrlf. now apply splitOn_join.
Qed.

Lemma splitLines_joinWithEOL_witness :
  splitLines (joinWithEOL [str "a"; [CR] ++ str "b" ++ [CR]; []] Crlf)
  = [str "a"; [CR] ++ str "b" ++ [CR]; []].
Proof.
  apply (splitLines_joinWithEOL Crlf [str "a"; [CR] ++ str "b" ++ [CR]; []]).
  - discriminate.
  - repeat constructor.
  - discriminate.
Defined.

(** The carriage return that the LF convention loses. *)
Example splitLines_joinWithEOL_lost_CR :
  splitLines (joinWithEOL [str "a" ++ [CR]; str "b"] Lf) = [str "a"; str "b"].
Proof. vm_compute. reflexivity. Qed.

(* ------------------------------------------------------------------------- *)
(** ** The scanners *)

(** The scanners take two code units at an escape: induction on the length. *)
Lemma length_induction (P : jsstring -> Prop) :
  (forall s, (forall t, length t < length s -> P t) -> P s) -> forall s, P s.
Proof.
  intros H s. remember (length s) as n eqn:Hn.
  revert s Hn. induction n as [n IH] using lt_wf_ind.
  intros s ->. apply H. intros t Ht. now apply (IH (length t)).
Qed.

Lemma isQuote_not_BSL q : isQuote q = true -> chEq q BSL = false.
Proof.
  unfold isQuote. intros H. apply orb_true_iff in H as [H|H];
    apply chEq_eq in H; subst q; reflexivity.
Qed.

Lemma stripStringsFrom_no_quote s :
  forall st, forallb notQuote (stripStringsFrom st s) = true.
Proof.
  induction s as [s IH] using length_induction.
  intros st. destruct s as [|c s]; [reflexivity|]. simpl.
  destruct st as [q|].
  - destruct (chEq c BSL).
    + destruct s as [|d s]; [reflexivity|]. apply IH. simpl. lia.
    + destruct (chEq c q); apply IH; simpl; lia.
  - destruct (isQuote c) eqn:Hc.
    + apply IH. simpl. lia.
    + simpl. unfold notQuote at 1. rewrite Hc. simpl. apply IH. simpl. lia.
Qed.

Lemma stripStrings_code text rest :
  forallb notQuote text = true ->
  stripStringsFrom None (text ++ rest) = text ++ stripStringsFrom None rest.
Proof.
  induction text as [|c text IH]; simpl; [reflexivity|].
  intros H. apply andb_true_iff in H as [Hc Htext].
  apply negb_true_iff in Hc. rewrite Hc. now rewrite IH.
Qed.

Lemma stripStrings_content q content :
  forall rest,
    chEq q BSL = false ->
    closedContent q content = true ->
    stripStringsFrom (Some q) (content ++ q :: rest) = stripStringsFrom None rest.
Proof.
  induction content as [content IH] using length_induction.
  intros rest Hq Hclosed. destruct content as [|c content]; simpl in *.
  - now rewrite Hq, chEq_refl.
  - destruct (chEq c BSL).
    + destruct content as [|d content]; [discriminate|].
      simpl. apply IH; auto; simpl; lia.
    + apply andb_true_iff in Hclosed as [Hcq Hclosed].
      apply negb_true_iff in Hcq. rewrite Hcq. apply IH; auto; simpl; lia.
Qed.

Lemma stripStrings_twice line : stripStrings (stripStrings line) = stripStrings line.
Proof.
  unfold stripStrings at 1.
  rewrite <- (app_nil_r (stripStrings line)) at 1.
  rewrite stripStrings_code by apply stripStringsFrom_no_quote.
  simpl. apply app_nil_r.
Qed.

(** X3.  [stripStrings] never lets a quote through, so stripping twice is
    stripping once, and the bracket count of a line is the bracket count of
    its stripped form. *)
Theorem stripStrings_no_quote line :
  forallb notQuote (stripStrings line) = true
  /\ stripStrings (stripStrings line) = stripStrings line
  /\ netBracketDelta (stripStrings line) = netBracketDelta line.
Proof.
  split; [apply stripStringsFrom_no_quote|]. split; [apply stripStrings_twice|].
  unfold netBracketDelta. now rewrite stripStrings_twice.
Qed.

(** X4.  On a line of code and closed literals [stripStrings] keeps the
    code and drops the literals, quotes included: the brackets written in
    string literals never count for the depth. *)
Theorem stripStrings_segments segs :
  forallb wellFormed segs = true ->
  stripStrings (renderLine segs) = concat (map codeOf segs)
  /\ netBracketDelta (renderLine segs) = netBracketDelta (concat (map codeOf segs)).
Proof.
  intros H.
  assert (Hs : stripStrings (renderLine segs) = concat (map codeOf segs)).
  { unfold stripStrings, renderLine.
    induction segs as [|seg segs IH]; [reflexivity|].
    simpl in H. apply andb_true_iff in H as [Hseg Hsegs].
    destruct seg as [text|q content]; simpl in *.
    - rewrite stripStrings_code by exact Hseg. now rewrite IH.
    - apply andb_true_iff in Hseg as [Hq Hclosed].
      rewrite Hq, <- app_assoc. simpl.
      rewrite stripStrings_content;
        [now apply IH|now apply isQuote_not_BSL|exact Hclosed]. }
  split; [exact Hs|].
  assert (Hc : stripStrings (concat (map codeOf segs)) = concat (map codeOf segs)).
  { rewrite <- Hs. apply stripStrings_twice. }
  unfold netBracketDelta. now rewrite Hs, Hc.
Qed.

Lemma stripStrings_segments_witness :
  netBracketDelta (renderLine [Code (str "f("); Literal SQ (str "}}]"); Code (str ") {")])
  = netBracketDelta (str "f() {").
Proof.
  apply (proj2 (stripStrings_segments
                  [Code (str "f("); Literal SQ (str "}}]"); Code (str ") {")] eq_refl)).
Defined.

Lemma stripStrings_renderLine segs :
  forallb wellFormed segs = true ->
  stripStrings (renderLine segs) = concat (map codeOf segs).
Proof.
  intros H. unfold stripStrings, renderLine.
  induction segs as [|seg segs IH]; [reflexivity|].
  simpl in H. apply andb_true_iff in H as [Hseg Hsegs].
  destruct seg as [text|q content]; simpl in *.
  - rewrite stripStrings_code by exact Hseg. now rewrite IH.
  - apply andb_true_iff in Hseg as [Hq Hclosed].
    rewrite Hq, <- app_assoc. simpl.
    rewrite stripStrings_content;
      [now apply IH|now apply isQuote_not_BSL|exact Hclosed].
Qed.

(** C7.  In one run of pass 1 the depth counter met by a line is the plain
    sum of the net bracket deltas of the lines before it, with no lower
    bound, and the line adds its own delta for the lines that follow (the
    loop ends with the sum over all the lines, whenever [normalizeIndent]
    does not raise); only the indentation clamps: the leading blanks and
    tabs of the line are replaced by the indent unit repeated
    [max(0, indentLevel - preDec)] times, where [preDec] is 1 exactly when
    the first character after the leading blanks and tabs is a closing
    bracket.  The delta of a line made of code and closed string literals is
    the number of ['{'], ['['], ['('] less the number of ['}'], [']'], [')']
    in its code: the brackets written in the literals do not count.  On
    ["}"], ["{"], ["x"] the counter goes to -1 and back to 0, and ["x"] is
    not indented; the line [f('}}]') {] has delta 1, so the line after it is
    indented once. *)
Theorem indentLevel_clamped_only_at_indentation :
  (forall indentUnit tabSizeV opt pre l0 out lvl raw,
      passLoop indentUnit tabSizeV opt ([], 0%Z) pre = Some (out, lvl) ->
      normalizeIndent l0 indentUnit tabSizeV (orDefault (insertSpaces opt) true) = Some raw ->
      lvl = sumDeltas pre
      /\ passLoop indentUnit tabSizeV opt ([], 0%Z) (pre ++ [l0]) =
         Some (out ++ [rewriteLine opt out
                         (repeatStr indentUnit (Z.to_nat (Z.max 0 (lvl - preDecOf raw)))
                          ++ stripLeadingSpTab raw)],
               (lvl + netBracketDelta l0)%Z)
      /\ (preDecOf raw = 1%Z <->
          exists c rest, stripLeadingSpTab raw = c :: rest /\ In c (str "}])")))
  /\ (forall indentUnit tabSizeV opt src,
         orDefault (insertSpaces opt) true = true \/ tabSizeV <> 0 ->
         exists out,
           passLoop indentUnit tabSizeV opt ([], 0%Z) src = Some (out, sumDeltas src)
           /\ length out = length src)
  /\ (forall segs,
         forallb wellFormed segs = true ->
         netBracketDelta (renderLine segs) =
         (Z.of_nat (countIf (oneOf (str "{[(")) (concat (map codeOf segs)))
          - Z.of_nat (countIf (oneOf (str "}])")) (concat (map codeOf segs))))%Z)
  /\ passLoop (str "  ") 2 lspOptions ([], 0%Z) [str "}"] = Some ([str "}"], (-1)%Z)
  /\ passLoop (str "  ") 2 lspOptions ([], 0%Z) [str "}"; str "{"; str "x"]
     = Some ([str "}"; str "{"; str "x"], 0%Z)
  /\ netBracketDelta (str "f('}}]') {") = 1%Z
  /\ passLoop (str "  ") 2 lspOptions ([], 0%Z) [str "f('}}]') {"; str "x"; str "}"]
     = Some ([str "f('}}]') {"; str "  x"; str "}"], 0%Z)
  /\ passLoop (str "  ") 2 lspOptions ([], 0%Z)
       [str "f(" ++ dq ")" ++ str ", '(', {"; str "x"; str "})"]
     = Some ([str "f(" ++ dq ")" ++ str ", '(', {"; str "    x"; str "  })"], 0%Z).
Proof.
  split; [|split; [|split; [|repeat split; vm_compute; reflexivity]]].
  2: { intros indentUnit tabSizeV opt src H.
       destruct (passLoop_total indentUnit tabSizeV opt src H ([], 0%Z)) as [[out lvl] Hst].
       exists out. destruct (passLoop_level _ _ _ _ _ _ _ _ Hst) as [-> Hlen].
       split; [exact Hst|exact Hlen]. }
  2: { intros segs H. unfold netBracketDelta.
       rewrite (stripStrings_renderLine segs H). reflexivity. }
  intros indentUnit tabSizeV opt pre l0 out lvl raw Hpre Hraw.
  split; [|split].
  - apply passLoop_level in Hpre as [-> _]. reflexivity.
  - rewrite passLoop_app, Hpre. simpl. rewrite Hraw.
    rewrite (normalizeIndent_delta _ _ _ _ _ Hraw).
    unfold indentLine, applyIndentHeuristic, preDecOf.
    now rewrite (Z.max_r 0 (Z.max 0 _)) by lia.
  - unfold preDecOf, startsWithClosingBracket.
    destruct (stripLeadingSpTab raw) as [|c rest].
    + split; [discriminate|]. intros (c & rest & H & _). discriminate.
    + destruct (isCloseBracket c) eqn:Hc.
      * split; [|reflexivity]. intros _. exists c, rest. split; [reflexivity|].
        now apply isCloseBracket_In.
      * split; [discriminate|]. intros (c' & rest' & [= <- <-] & Hin).
        apply isCloseBracket_In in Hin. congruence.
Qed.

Lemma indentLevel_clamped_only_at_indentation_witness :
  (1%Z = sumDeltas [str "f('}}]') {"; str "g(" ++ dq ")" ++ str ")"]
   /\ passLoop (str "  ") 2 lspOptions ([], 0%Z)
        ([str "f('}}]') {"; str "g(" ++ dq ")" ++ str ")"] ++ [str "    ]"]) =
      Some ([str "f('}}]') {"; str "  g(" ++ dq ")" ++ str ")"] ++ [str "]"], (1 + -1)%Z))
  /\ netBracketDelta (str "f('}}]') {") = (2 - 1)%Z.
Proof.
  split.
  - destruct (proj1 indentLevel_clamped_only_at_indentation
                (str "  ") 2 lspOptions [str "f('}}]') {"; str "g(" ++ dq ")" ++ str ")"]
                (str "    ]")
                [str "f('}}]') {"; str "  g(" ++ dq ")" ++ str ")"] 1%Z (str "    ]"))
      as (H1 & H2 & _).
    + vm_compute. reflexivity.
    + vm_compute. reflexivity.
    + split; [exact H1|]. rewrite H2. vm_compute. reflexivity.
  - apply (proj1 (proj2 (proj2 indentLevel_clamped_only_at_indentation))
             [Code (str "f("); Literal SQ (str "}}]"); Code (str ") {")]).
    vm_compute. reflexivity.
Defined.

Lemma rewriteOutsideFrom_id s :
  (forall chunk, rewriteOutsideFrom (fun c => c) (InCode chunk) s = chunk ++ s)
  /\ (forall q, rewriteOutsideFrom (fun c => c) (InStr q) s = s).
Proof.
  induction s as [s IH] using length_induction.
  destruct s as [|c s]; simpl.
  - split; [|reflexivity]. intros [|x chunk]; simpl; [reflexivity|].
    now rewrite app_nil_r.
  - split.
    + intros chunk. destruct (isQuote c).
      * rewrite (proj2 (IH s (Nat.lt_succ_diag_r _))).
        now destruct chunk.
      * rewrite (proj1 (IH s (Nat.lt_succ_diag_r _))). now rewrite <- app_assoc.
    + intros q. destruct (chEq c BSL).
      * destruct s as [|d s]; [reflexivity|].
        assert (Hlt : length s < length (c :: d :: s)) by (simpl; lia).
        now rewrite (proj2 (IH s Hlt)).
      * destruct (chEq c q).
        -- now rewrite (proj1 (IH s (Nat.lt_succ_diag_r _))).
        -- now rewrite (proj2 (IH s (Nat.lt_succ_diag_r _))).
Qed.

(** X5.  With the transform that changes nothing, [rewriteOutsideStrings]
    gives the line back, whatever its quotes and escapes, closed or not: the
    walk neither drops nor repeats a code unit. *)
Theorem rewriteOutsideStrings_id line :
  rewriteOutsideStrings line (fun chunk => chunk) = line.
Proof.
  unfold rewriteOutsideStrings. now rewrite (proj1 (rewriteOutsideFrom_id line)).
Qed.

(** X6.  On a line of code and closed literals, [rewriteOutsideStrings]
    applies the transform to each maximal stretch of code and emits every
    literal as it is, quotes and escapes included. *)
Theorem rewriteOutsideStrings_segments fn segs :
  forallb wellFormed segs = true ->
  rewriteOutsideStrings (renderLine segs) fn = rewriteSegments fn [] segs.
Proof.
  intros H. unfold rewriteOutsideStrings.
  now apply rewriteOutsideStrings_keeps_literals.
Qed.

Lemma rewriteOutsideStrings_segments_witness :
  ensureSpaceAfterCommasOutsideStrings
    (renderLine [Code (str "f(a,"); Literal SQ (str "b,c"); Code (str ",d)")])
  = str "f(a, 'b,c', d)".
Proof.
  unfold ensureSpaceAfterCommasOutsideStrings.
  rewrite rewriteOutsideStrings_segments by reflexivity.
  vm_compute. reflexivity.
Defined.

Lemma startsWith_firstn p s :
  startsWith p s = true -> firstn (length p) s = p.
Proof.
  revert s; induction p as [|x p IH]; intros [|y s]; simpl; try reflexivity; try discriminate.
  intros H. apply andb_true_iff in H as [Hx Hp].
  apply chEq_eq in Hx. subst y. now rewrite IH.
Qed.

Lemma indexOf_firstn p s :
  forall j, indexOf p s = Some j -> firstn (j + length p) s = firstn j s ++ p.
Proof.
  induction s as [|x s IH]; intros j; simpl.
  - destruct (startsWith p []) eqn:Hp; [|discriminate].
    intros [= <-]. simpl. now apply startsWith_firstn in Hp.
  - destruct (startsWith p (x :: s)) eqn:Hp.
    + intros [= <-]. simpl. now apply startsWith_firstn in Hp.
    + destruct (indexOf p s) as [j'|]; [|discriminate].
      intros [= <-]. simpl. now rewrite IH.
Qed.

Lemma splitCodeAndCommentFrom_code pre c s :
  splitCodeAndCommentFrom None pre (c :: s) =
  if isQuote c then splitCodeAndCommentFrom (Some c) (pre ++ [c]) s
  else if (chEq c (ch "/") && startsWith (str "/") s)%bool then (pre, c :: s)
  else if (chEq c (ch "/") && startsWith (str "*") s)%bool then
    match indexOf (str "*/") (tl s) with
    | Some j => (pre, c :: ch "*" :: firstn (j + 2) (tl s))
    | None => splitCodeAndCommentFrom None (pre ++ [c]) s
    end
  else splitCodeAndCommentFrom None (pre ++ [c]) s.
Proof. reflexivity. Qed.

Lemma splitCodeAndCommentFrom_string q pre c s :
  splitCodeAndCommentFrom (Some q) pre (c :: s) =
  if chEq c BSL then
    match s with
    | d :: s' => splitCodeAndCommentFrom (Some q) (pre ++ [c; d]) s'
    | [] => (pre ++ [c], [])
    end
  else if chEq c q then splitCodeAndCommentFrom None (pre ++ [c]) s
  else splitCodeAndCommentFrom (Some q) (pre ++ [c]) s.
Proof. reflexivity. Qed.

Lemma startsWith_one x s : startsWith [x] s = true -> exists s', s = x :: s'.
Proof.
  destruct s as [|y s]; simpl; [discriminate|].
  rewrite andb_true_r. intros H. apply chEq_eq in H. subst. now exists s.
Qed.

Lemma splitCodeAndCommentFrom_outcome s :
  forall st pre code comment,
    splitCodeAndCommentFrom st pre s = (code, comment) ->
    splitOutcome (pre ++ s) code comment.
Proof.
  induction s as [s IH] using length_induction.
  intros st pre code comment. destruct s as [|c s].
  - simpl. intros [= <- <-]. left. now rewrite app_nil_r.
  - assert (Hstep : forall st', splitCodeAndCommentFrom st' (pre ++ [c]) s = (code, comment) ->
                                splitOutcome (pre ++ c :: s) code comment).
    { intros st' H. apply IH in H; [|simpl; lia].
      now rewrite <- app_assoc in H. }
    destruct st as [q|].
    + rewrite splitCodeAndCommentFrom_string. destruct (chEq c BSL).
      * destruct s as [|d s].
        -- intros [= <- <-]. now left.
        -- intros H. apply IH in H; [|simpl; lia].
           now rewrite <- app_assoc in H.
      * destruct (chEq c q); apply Hstep.
    + rewrite splitCodeAndCommentFrom_code.
      destruct (isQuote c); [apply Hstep|].
      destruct (chEq c (ch "/")) eqn:Hc; [|apply Hstep].
      apply chEq_eq in Hc. subst c. rewrite !andb_true_l.
      destruct (startsWith (str "/") s) eqn:Hslash.
      * intros [= <- <-]. right. left. split; [|reflexivity].
        apply startsWith_one in Hslash as [s' ->]. reflexivity.
      * destruct (startsWith (str "*") s) eqn:Hstar; [|apply Hstep].
        apply startsWith_one in Hstar as [s' ->]. cbn [tl].
        destruct (indexOf (str "*/") s') as [j|] eqn:Hj; [|apply Hstep].
        intros [= <- <-]. right. right.
        exists (firstn j s'), (skipn (j + 2) s'). split.
        -- change (j + 2) with (j + length (str "*/")).
           now rewrite (indexOf_firstn _ _ _ Hj).
        -- f_equal. cbn [app].
           change (ch "/" :: ch "*" :: s' =
                   ch "/" :: ch "*" :: firstn (j + 2) s' ++ skipn (j + 2) s').
           now rewrite firstn_skipn.
Qed.

(** X7.  [splitCodeAndComment] invents nothing.  Either there is no comment
    and the code is the whole line; or the comment starts with two slashes
    and the code followed by the comment is the whole line; or the comment
    is a closed block comment, and the line is the code, the comment and the
    text after the comment, which is in neither part. *)
Theorem splitCodeAndComment_parts line :
  splitOutcome line (fst (splitCodeAndComment line)) (snd (splitCodeAndComment line)).
Proof.
  apply (splitCodeAndCommentFrom_outcome line None []).
  unfold splitCodeAndComment. now destruct (splitCodeAndCommentFrom None [] line).
Qed.

(* ------------------------------------------------------------------------- *)
(** ** Trailing white space and final newlines *)

Lemma takeWhile_forallb p s : forallb p s = true -> takeWhile p s = s.
Proof.
  induction s as [|c s IH]; simpl; [reflexivity|].
  intros H. apply andb_true_iff in H as [Hc Hs]. now rewrite Hc, IH.
Qed.

Lemma dropWhile_forallb p s : forallb p s = true -> dropWhile p s = [].
Proof.
  induction s as [|c s IH]; simpl; [reflexivity|].
  intros H. apply andb_true_iff in H as [Hc Hs]. now rewrite Hc, IH.
Qed.

Lemma dropWhile_nil p s : dropWhile p s = [] -> forallb p s = true.
Proof.
  induction s as [|c s IH]; simpl; [reflexivity|].
  destruct (p c); [exact IH|discriminate].
Qed.

Lemma dropWhile_app p a b :
  dropWhile p (a ++ b) = if forallb p a then dropWhile p b else dropWhile p a ++ b.
Proof.
  induction a as [|c a IH]; simpl; [reflexivity|].
  destruct (p c); simpl; [exact IH|reflexivity].
Qed.

Lemma dropWhile_head p s c r : dropWhile p s = c :: r -> p c = false.
Proof.
  induction s as [|x s IH]; simpl; [discriminate|].
  destruct (p x) eqn:Hx; [exact IH|]. intros [= <- <-]. exact Hx.
Qed.

Lemma forallb_rev (p : char -> bool) s : forallb p (rev s) = forallb p s.
Proof.
  induction s as [|c s IH]; simpl; [reflexivity|].
  rewrite forallb_app, IH. simpl. rewrite andb_true_r. apply andb_comm.
Qed.

Lemma stripTrailing_cons p c s :
  stripTrailing p (c :: s) = if forallb p (c :: s) then [] else c :: stripTrailing p s.
Proof.
  unfold stripTrailing. simpl. rewrite dropWhile_app, forallb_rev.
  destruct (forallb p s) eqn:Hs; simpl.
  - destruct (p c); simpl; [reflexivity|].
    rewrite (dropWhile_forallb p (rev s)); [reflexivity|].
    rewrite forallb_rev. exact Hs.
  - rewrite andb_false_r. rewrite rev_app_distr. reflexivity.
Qed.

Lemma stripTrailing_lastOutside p s : lastOutside p (stripTrailing p s) = true.
Proof.
  unfold lastOutside, stripTrailing. rewrite rev_involutive.
  destruct (dropWhile p (rev s)) as [|c r] eqn:H; [reflexivity|].
  apply dropWhile_head in H. now rewrite H.
Qed.

Lemma stripTrailing_prefix p s :
  exists tail, s = stripTrailing p s ++ tail /\ forallb p tail = true.
Proof.
  unfold stripTrailing. exists (rev (takeWhile p (rev s))). split.
  - rewrite <- rev_app_distr, takeWhile_dropWhile. now rewrite rev_involutive.
  - rewrite forallb_rev. apply takeWhile_all.
Qed.

Lemma stripTrailing_fixed p s : lastOutside p s = true -> stripTrailing p s = s.
Proof.
  unfold lastOutside, stripTrailing. intros H.
  destruct (rev s) as [|c r] eqn:Hr.
  - simpl. rewrite <- (rev_involutive s), Hr. reflexivity.
  - simpl. apply negb_true_iff in H. rewrite H.
    rewrite <- Hr. apply rev_involutive.
Qed.

Lemma trimTrailingSpTab_cons c s :
  trimTrailingSpTab (c :: s) =
  if forallb isSpTab (c :: s) then [] else c :: trimTrailingSpTab s.
Proof.
  unfold trimTrailingSpTab. rewrite replaceAll_cons. unfold rxTrailingSpTab.
  destruct (forallb isSpTab (c :: s)) eqn:Hall.
  - rewrite takeWhile_forallb, dropWhile_forallb by exact Hall.
    cbn [length Nat.pred]. rewrite skipn_all. reflexivity.
  - destruct (dropWhile isSpTab (c :: s)) eqn:Hd.
    + apply dropWhile_nil in Hd. congruence.
    + now destruct (takeWhile isSpTab (c :: s)).
Qed.

Lemma trimTrailingSpTab_strip s : trimTrailingSpTab s = stripTrailing isSpTab s.
Proof.
  induction s as [|c s IH]; [reflexivity|].
  rewrite trimTrailingSpTab_cons, stripTrailing_cons. now rewrite IH.
Qed.

(** X8.  The trimming of trailing white space removes the longest suffix of
    blanks and tabs, and nothing else: what is left is a prefix of the line,
    it does not end with a blank or a tab, and trimming it again changes
    nothing. *)
Theorem trimTrailingSpTab_spec line :
  trimTrailingSpTab line = stripTrailing isSpTab line
  /\ (exists tail, line = trimTrailingSpTab line ++ tail /\ forallb isSpTab tail = true)
  /\ lastOutside isSpTab (trimTrailingSpTab line) = true
  /\ trimTrailingSpTab (trimTrailingSpTab line) = trimTrailingSpTab line.
Proof.
  split; [apply trimTrailingSpTab_strip|]. rewrite !trimTrailingSpTab_strip.
  split; [apply stripTrailing_prefix|].
  split; [apply stripTrailing_lastOutside|].
  apply stripTrailing_fixed, stripTrailing_lastOutside.
Qed.

Lemma passLoop_trimmed indentUnit tabSizeV opt src :
  orDefault (trimTrailingWhitespace opt) true = true ->
  forall out lvl out' lvl',
    Forall (fun l => lastOutside isSpTab l = true) out ->
    passLoop indentUnit tabSizeV opt (out, lvl) src = Some (out', lvl') ->
    Forall (fun l => lastOutside isSpTab l = true) out'.
Proof.
  intros Htrim. induction src as [|l src IH]; intros out lvl out' lvl' Hout; simpl.
  - now intros [= <- <-].
  - destruct (normalizeIndent l indentUnit tabSizeV _) as [raw|]; [|discriminate].
    apply IH. apply Forall_app. split; [exact Hout|]. constructor; [|constructor].
    unfold rewriteLine. rewrite Htrim, trimTrailingSpTab_strip.
    apply stripTrailing_lastOutside.
Qed.

(** X9.  Unless [trimTrailingWhitespace] is set to false, no line that
    leaves pass 1 ends with a blank or a tab, whatever the other options. *)
Theorem passIndentAndSpacing_trimmed indentUnit tabSizeV opt src out :
  orDefault (trimTrailingWhitespace opt) true = true ->
  passIndentAndSpacing indentUnit tabSizeV opt src = Some out ->
  Forall (fun l => lastOutside isSpTab l = true) out.
Proof.
  intros Htrim. unfold passIndentAndSpacing.
  destruct (passLoop indentUnit tabSizeV opt ([], 0%Z) src) as [[out' lvl]|] eqn:H;
    [|discriminate].
  intros [= <-]. simpl.
  now apply (passLoop_trimmed indentUnit tabSizeV opt src Htrim [] 0%Z out' lvl).
Qed.

Lemma passIndentAndSpacing_trimmed_witness :
  Forall (fun l => lastOutside isSpTab l = true) [str "f(a) {"; str "  x"; []].
Proof.
  apply (passIndentAndSpacing_trimmed (str "  ") 2 lspOptions
           [str "f(a)  {  "; str "x " ++ [TAB]; str "   "]).
  - reflexivity.
  - vm_compute. reflexivity.
Defined.

Lemma lastOutside_snoc p u c : lastOutside p (u ++ [c]) = negb (p c).
Proof. unfold lastOutside. now rewrite rev_app_distr. Qed.

Lemma lastOutside_cons p c s : s <> [] -> lastOutside p (c :: s) = lastOutside p s.
Proof.
  intros Hs. destruct (exists_last Hs) as (u & d & ->).
  now rewrite app_comm_cons, !lastOutside_snoc.
Qed.

Lemma lastOutside_all p c s : forallb p (c :: s) = true -> lastOutside p (c :: s) = false.
Proof.
  intros H. destruct (@exists_last _ (c :: s)) as (u & d & Hu); [discriminate|].
  rewrite Hu in *. rewrite lastOutside_snoc.
  rewrite forallb_app in H. apply andb_true_iff in H as [_ H]. simpl in H.
  rewrite andb_true_r in H. now rewrite H.
Qed.

Lemma endsWith_lastOutside t x : negb (endsWith t [x]) = lastOutside (chEq x) t.
Proof.
  unfold endsWith, lastOutside. simpl.
  destruct (rev t) as [|c r]; [reflexivity|]. now rewrite andb_true_r.
Qed.

Lemma lastOutside_false p t :
  lastOutside p t = false -> exists u c, t = u ++ [c] /\ p c = true.
Proof.
  destruct t as [|x t]; [discriminate|].
  destruct (@exists_last _ (x :: t)) as (u & d & Hu); [discriminate|].
  rewrite Hu, lastOutside_snoc. intros H. apply negb_false_iff in H.
  now exists u, d.
Qed.

Lemma trimFinal_cons c s :
  replaceAll rxFinalNewlines (c :: s) =
  if forallb (chEq LF) (c :: s) then [LF] else c :: replaceAll rxFinalNewlines s.
Proof.
  rewrite replaceAll_cons. unfold rxFinalNewlines.
  destruct (forallb (chEq LF) (c :: s)) eqn:Hall.
  - rewrite takeWhile_forallb, dropWhile_forallb by exact Hall.
    cbn [length Nat.pred]. rewrite skipn_all. reflexivity.
  - destruct (dropWhile (chEq LF) (c :: s)) eqn:Hd.
    + apply dropWhile_nil in Hd. congruence.
    + now destruct (takeWhile (chEq LF) (c :: s)).
Qed.

(** The final run of line feeds, if there is one, becomes one line feed. *)
Lemma trimFinal_closed t :
  replaceAll rxFinalNewlines t =
  stripTrailing (chEq LF) t ++ (if lastOutside (chEq LF) t then [] else [LF]).
Proof.
  induction t as [|c t IH]; [reflexivity|].
  rewrite trimFinal_cons, stripTrailing_cons.
  destruct (forallb (chEq LF) (c :: t)) eqn:Hall.
  - rewrite (lastOutside_all _ _ _ Hall). reflexivity.
  - assert (Hlast : lastOutside (chEq LF) (c :: t) = lastOutside (chEq LF) t).
    { destruct t as [|d t].
      - simpl in Hall. rewrite andb_true_r in Hall.
        unfold lastOutside. simpl. now rewrite Hall.
      - apply lastOutside_cons. discriminate. }
    now rewrite IH, Hlast.
Qed.

(** X10.  When [insertFinalNewline] is on, the text that
    [provideFormattingEdits] builds ends with a line feed; when
    [trimFinalNewlines] is on, it never ends with two line feeds. *)
Theorem formattedText_final_newline original options text :
  formattedText original options = Some text ->
  (truthy (insertFinalNewline options) = true -> exists u, text = u ++ [LF])
  /\ (truthy (trimFinalNewlines options) = true -> forall u, text <> u ++ [LF; LF]).
Proof.
  unfold formattedText.
  destruct (formatLines (splitLines original) options) as [outLines|]; [|discriminate].
  set (joined := joinWithEOL outLines _).
  set (trimmed := if truthy (trimFinalNewlines options)
                  then replaceAll rxFinalNewlines joined else joined).
  intros [= <-]. split.
  - intros ->. simpl. rewrite endsWith_lastOutside.
    destruct (lastOutside (chEq LF) trimmed) eqn:Hlast.
    + now exists trimmed.
    + apply lastOutside_false in Hlast as (u & c & -> & Hc).
      apply chEq_eq in Hc. subst c. now exists u.
  - intros Htrim u Hu.
    assert (Hshape : exists core, lastOutside (chEq LF) core = true
                                  /\ (trimmed = core \/ trimmed = core ++ [LF])).
    { subst trimmed. rewrite Htrim, trimFinal_closed.
      exists (stripTrailing (chEq LF) joined).
      split; [apply stripTrailing_lastOutside|].
      destruct (lastOutside (chEq LF) joined); [left; apply app_nil_r|now right]. }
    destruct Hshape as (core & Hcore & Hshape).
    rewrite endsWith_lastOutside in Hu.
    assert (Hends : forall v, lastOutside (chEq LF) (v ++ [LF]) = false)
      by (intros v; now rewrite lastOutside_snoc).
    change (u ++ [LF; LF]) with (u ++ [LF] ++ [LF]) in Hu. rewrite app_assoc in Hu.
    destruct (truthy (insertFinalNewline options) && lastOutside (chEq LF) trimmed)%bool
      eqn:Hins.
    + apply andb_true_iff in Hins as [_ Hlast].
      apply app_inj_tail in Hu as [Hu _]. rewrite Hu, Hends in Hlast. discriminate.
    + destruct Hshape as [Hs|Hs]; rewrite Hs in Hu.
      * rewrite Hu, Hends in Hcore. discriminate.
      * apply app_inj_tail in Hu as [Hu _]. rewrite Hu, Hends in Hcore. discriminate.
Qed.

Lemma formattedText_final_newline_witness :
  (exists u, text_of [str "a"; []] = u ++ [LF])
  /\ forall u, text_of [str "a"; []] <> u ++ [LF; LF].
Proof.
  destruct (formattedText_final_newline
              (text_of [str "a"; []; []; []]) defaultOptions (text_of [str "a"; []]))
    as [H1 H2].
  - vm_compute. reflexivity.
  - split; [apply H1; reflexivity|apply H2; reflexivity].
Defined.

(* ------------------------------------------------------------------------- *)
(** ** More on the blank-run limiter *)

Lemma limitBlankFrom_twice maxBlank lines :
  forall r1 r2,
    (r2 <= r1)%Z ->
    limitBlankFrom maxBlank r2 (limitBlankFrom maxBlank r1 lines) =
    limitBlankFrom maxBlank r1 lines.
Proof.
  induction lines as [|l lines IH]; intros r1 r2 Hr; simpl; [reflexivity|].
  destruct (isBlank l) eqn:Hl.
  - destruct (Z.leb_spec (r1 + 1) maxBlank) as [Hle|Hgt].
    + simpl. destruct (Z.leb_spec (r2 + 1) maxBlank) as [_|Hgt]; [|lia].
      f_equal. apply IH. lia.
    + apply IH. lia.
  - simpl. rewrite Hl. f_equal. apply IH. lia.
Qed.

(** X11.  The blank-run limiter is idempotent: limiting limited lines
    changes nothing. *)
Theorem limitBlankRuns_idempotent lines maxBlank :
  limitBlankRuns (limitBlankRuns lines maxBlank) maxBlank = limitBlankRuns lines maxBlank.
Proof. unfold limitBlankRuns. apply limitBlankFrom_twice. lia. Qed.

Lemma limitBlankFrom_none maxBlank lines :
  (maxBlank <= 0)%Z ->
  forall run, (0 <= run)%Z ->
              limitBlankFrom maxBlank run lines = filter nonBlank lines.
Proof.
  intros Hm. induction lines as [|l lines IH]; intros run Hrun; simpl; [reflexivity|].
  unfold nonBlank at 1. destruct (isBlank l); simpl.
  - destruct (Z.leb_spec (run + 1) maxBlank) as [Hle|_]; [lia|]. apply IH. lia.
  - f_equal. apply IH. lia.
Qed.

Lemma limitBlankFrom_all maxBlank lines :
  forall run,
    (0 <= run)%Z ->
    (run + Z.of_nat (length lines) <= maxBlank)%Z ->
    limitBlankFrom maxBlank run lines = map (fun l => if isBlank l then [] else l) lines.
Proof.
  induction lines as [|l lines IH]; intros run H0 Hrun; [reflexivity|].
  cbn [length] in Hrun. cbn [limitBlankFrom map]. destruct (isBlank l).
  - destruct (Z.leb_spec (run + 1) maxBlank) as [_|Hgt]; [|lia].
    f_equal. apply IH; lia.
  - f_equal. apply IH; lia.
Qed.

(** X12.  The two ends of the limit.  With [maxConsecutiveBlankLines] at
    zero or below, every blank line is removed and the other lines are kept
    as they are; with a limit that is at least the number of lines, no line
    is removed and each blank line becomes the empty line. *)
Theorem limitBlankRuns_extremes lines maxBlank :
  ((maxBlank <= 0)%Z -> limitBlankRuns lines maxBlank = filter nonBlank lines)
  /\ ((Z.of_nat (length lines) <= maxBlank)%Z ->
      limitBlankRuns lines maxBlank = map (fun l => if isBlank l then [] else l) lines).
Proof.
  unfold limitBlankRuns. split; intros H.
  - apply limitBlankFrom_none; lia.
  - apply limitBlankFrom_all; lia.
Qed.

Lemma limitBlankRuns_extremes_witness :
  limitBlankRuns [str "a"; [SP]; []; str "b"] (-1) = [str "a"; str "b"]
  /\ limitBlankRuns [str "a"; [SP]; []; str "b"] 4 = [str "a"; []; []; str "b"].
Proof.
  split.
  - apply (proj1 (limitBlankRuns_extremes [str "a"; [SP]; []; str "b"] (-1))). lia.
  - apply (proj2 (limitBlankRuns_extremes [str "a"; [SP]; []; str "b"] 4)). simpl. lia.
Defined.

(* ------------------------------------------------------------------------- *)
(** ** The alignment of trailing comments *)

Lemma setAt_middle pre v x rest :
  setAt (length pre) v (pre ++ x :: rest) = pre ++ v :: rest.
Proof. induction pre as [|p pre IH]; simpl; [reflexivity|now rewrite IH]. Qed.

Lemma commentInfo_max lines :
  forall i maxCode, snd (commentInfo i maxCode lines) = maxCodeFrom maxCode lines.
Proof.
  unfold maxCodeFrom.
  induction lines as [|l lines IH]; intros i maxCode; simpl; [reflexivity|].
  destruct (splitCodeAndComment l) as [code comment]. simpl.
  destruct comment as [|c comment]; [apply IH|].
  specialize (IH (S i) (Nat.max maxCode (length (trimTrailingSpTab code)))).
  destruct (commentInfo (S i) _ lines) as [info m]. exact IH.
Qed.

Lemma maxCodeFrom_le lines :
  forall maxCode,
    maxCode <= maxCodeFrom maxCode lines
    /\ forall l, In l lines -> snd (splitCodeAndComment l) <> [] ->
                 length (trimTrailingSpTab (fst (splitCodeAndComment l)))
                 <= maxCodeFrom maxCode lines.
Proof.
  unfold maxCodeFrom.
  induction lines as [|x lines IH]; intros maxCode; simpl.
  - split; [lia|tauto].
  - set (m := match snd (splitCodeAndComment x) with [] => maxCode | _ => _ end).
    destruct (IH m) as [Hm Hin]. split.
    + subst m. destruct (snd (splitCodeAndComment x)); lia.
    + intros l [Heq|Hl] Hc; [|now apply Hin].
      subst l m. destruct (snd (splitCodeAndComment x)); [congruence|lia].
Qed.

Lemma alignComments_fold M lines :
  forall pre maxCode,
    fold_left (fun out '(idx, code, comment) =>
                 let pad := repeatStr [SP] (Nat.max 1 (M - length code + 1)) in
                 setAt idx (code ++ pad ++ comment) out)
              (fst (commentInfo (length pre) maxCode lines)) (pre ++ lines)
    = pre ++ map (fun l =>
                    match snd (splitCodeAndComment l) with
                    | [] => l
                    | comment =>
                        let code := trimTrailingSpTab (fst (splitCodeAndComment l)) in
                        code ++ repeatStr [SP] (Nat.max 1 (M - length code + 1)) ++ comment
                    end) lines.
Proof.
  induction lines as [|l lines IH]; intros pre maxCode; [reflexivity|].
  cbn [commentInfo map].
  destruct (splitCodeAndComment l) as [code comment] eqn:Hsplit. cbn [fst snd].
  destruct comment as [|c comment].
  - specialize (IH (pre ++ [l]) maxCode).
    rewrite length_app in IH. cbn [length] in IH. rewrite Nat.add_1_r in IH.
    rewrite <- !app_assoc in IH. exact IH.
  - cbv zeta.
    set (new := trimTrailingSpTab code ++ _ ++ c :: comment).
    specialize (IH (pre ++ [new]) (Nat.max maxCode (length (trimTrailingSpTab code)))).
    rewrite length_app in IH. cbn [length] in IH. rewrite Nat.add_1_r in IH.
    rewrite <- !app_assoc in IH.
    destruct (commentInfo (S (length pre)) _ lines) as [info m].
    cbn [fst fold_left]. rewrite setAt_middle. exact IH.
Qed.

(** X13.  [alignEndOfLineComments] rewrites each line that has a comment as
    its code without trailing blanks and tabs, blanks up to one column past
    the longest such code of the document, and the comment: all the comments
    start at that one column.  Lines without a comment are as they were, and
    the number of lines is the same. *)
Theorem alignEndOfLineComments_spec lines :
  let M := maxCodeFrom 0 lines in
  alignEndOfLineComments lines = map (alignComment M) lines
  /\ forall l, In l lines -> snd (splitCodeAndComment l) <> [] ->
               length (trimTrailingSpTab (fst (splitCodeAndComment l))) <= M.
Proof.
  intros M. split; [|apply maxCodeFrom_le].
  assert (Hmap : forall l, In l lines ->
            alignComment M l =
            match snd (splitCodeAndComment l) with
            | [] => l
            | comment =>
                let code := trimTrailingSpTab (fst (splitCodeAndComment l)) in
                code ++ repeatStr [SP] (Nat.max 1 (M - length code + 1)) ++ comment
            end).
  { intros l Hl. unfold alignComment.
    pose proof (proj2 (maxCodeFrom_le lines 0) l Hl) as Hle. fold M in Hle.
    destruct (snd (splitCodeAndComment l)) as [|c comment]; [reflexivity|].
    cbv zeta. specialize (Hle ltac:(discriminate)).
    do 2 f_equal. f_equal. lia. }
  rewrite (map_ext_in _ _ _ Hmap).
  unfold alignEndOfLineComments.
  pose proof (commentInfo_max lines 0 0) as Hmax. fold M in Hmax.
  pose proof (alignComments_fold M lines [] 0) as Hfold. simpl in Hfold.
  destruct (commentInfo 0 0 lines) as [info m]. simpl in Hmax, Hfold. subst m.
  destruct info as [|e info]; [exact Hfold|exact Hfold].
Qed.

Lemma alignEndOfLineComments_spec_witness :
  length (trimTrailingSpTab (fst (splitCodeAndComment (str "a   // x"))))
  <= maxCodeFrom 0 [str "a   // x"; str "bbbb // y"; str "c"].
Proof.
  apply (proj2 (alignEndOfLineComments_spec [str "a   // x"; str "bbbb // y"; str "c"])).
  - left. reflexivity.
  - vm_compute. discriminate.
Defined.

(** The text after a closed block comment is in neither part of the split,
    so the alignment drops it. *)
Example alignEndOfLineComments_drops_tail :
  alignEndOfLineComments [str "a /* b */ c"] = [str "a /* b */"].
Proof. vm_compute. reflexivity. Qed.

(* ------------------------------------------------------------------------- *)
(** ** The alignment of equals signs *)

Lemma setAt_length idx v out : length (setAt idx v out) = length out.
Proof.
  revert idx; induction out as [|x out IH]; intros [|idx]; simpl; try reflexivity.
  now rewrite IH.
Qed.

Lemma setAt_other idx v out j : j <> idx -> nth j (setAt idx v out) [] = nth j out [].
Proof.
  revert idx j; induction out as [|x out IH]; intros [|idx] [|j] H; simpl;
    try reflexivity; try congruence.
  apply IH. congruence.
Qed.

Lemma setAt_fold (f : list jsstring -> nat -> jsstring) block :
  forall out,
    length (fold_left (fun o idx => setAt idx (f o idx) o) block out) = length out
    /\ forall j, ~ In j block ->
                 nth j (fold_left (fun o idx => setAt idx (f o idx) o) block out) []
                 = nth j out [].
Proof.
  induction block as [|idx block IH]; intros out; simpl; [now split|].
  destruct (IH (setAt idx (f out idx) out)) as [Hlen Hnth]. split.
  - now rewrite Hlen, setAt_length.
  - intros j Hj. rewrite Hnth by tauto. apply setAt_other. intros ->. tauto.
Qed.

Lemma nth_skipn_add (l : list jsstring) i k : nth k (skipn i l) [] = nth (i + k) l [].
Proof.
  revert l; induction i as [|i IH]; intros [|x l]; simpl; try reflexivity.
  - now destruct k.
  - apply IH.
Qed.

Lemma gatherBlock_spec rest :
  forall i block block' i',
    gatherBlock i block rest = (block', i') ->
    i <= i'
    /\ exists new, block' = block ++ new
                   /\ forall j, In j new ->
                                i <= j < i' /\ qualifiesEq (nth (j - i) rest []) = true.
Proof.
  induction rest as [|l rest IH]; intros i block block' i'; cbn [gatherBlock].
  - intros [= <- <-]. split; [lia|]. exists []. split; [now rewrite app_nil_r|].
    intros j [].
  - assert (Hstop : (block, i) = (block', i') ->
                    i <= i' /\ exists new, block' = block ++ new
                      /\ forall j, In j new ->
                           i <= j < i' /\ qualifiesEq (nth (j - i) (l :: rest) []) = true).
    { intros [= <- <-]. split; [lia|]. exists []. split; [now rewrite app_nil_r|].
      intros j []. }
    destruct (isBlank l) eqn:Hblank; [exact Hstop|].
    destruct (includes (stripStrings l) (ch "=") && negb (startsLineComment (stripStrings l)))%bool
      eqn:Hq.
    + intros H. apply IH in H as (Hle & new & -> & Hnew).
      split; [lia|]. exists (i :: new). split; [now rewrite <- app_assoc|].
      intros j [<-|Hj].
      * split; [lia|]. rewrite Nat.sub_diag. simpl.
        unfold qualifiesEq. now rewrite Hblank, Hq.
      * destruct (Hnew j Hj) as [Hr Hqj]. split; [lia|].
        replace (j - i) with (S (j - S i)) by lia. exact Hqj.
    + destruct block as [|b block]; [|exact Hstop].
      intros H. apply IH in H as (Hle & new & -> & Hnew).
      split; [lia|]. exists new. split; [reflexivity|].
      intros j Hj. destruct (Hnew j Hj) as [Hr Hqj]. split; [lia|].
      replace (j - i) with (S (j - S i)) by lia. exact Hqj.
Qed.

Section AlignEquals.

Variable lines : list jsstring.

Lemma alignEqualsLoop_inv fuel :
  forall out i,
    alignEqualsInv lines out i ->
    exists i', alignEqualsInv lines (alignEqualsLoop fuel out i) i'.
Proof.
  induction fuel as [|fuel IH]; intros out i Hinv; cbn [alignEqualsLoop]; [now exists i|].
  destruct (i <? length out); [|now exists i].
  destruct (gatherBlock i [] (skipn i out)) as [block i'] eqn:Hg.
  apply gatherBlock_spec in Hg as (Hle & new & Hblock & Hnew). simpl in Hblock. subst new.
  apply IH. destruct Hinv as [Hlen Hnth].
  assert (Hin : forall j, In j block ->
                          i <= j < i' /\ qualifiesEq (nth j lines []) = true).
  { intros j Hj. destruct (Hnew j Hj) as [Hr Hq]. split; [exact Hr|].
    rewrite nth_skipn_add in Hq. replace (i + (j - i)) with j in Hq by lia.
    rewrite Hnth in Hq by (left; lia). exact Hq. }
  destruct (2 <=? length block); [|split; [exact Hlen|]].
  - unfold alignBlock, alignEqualsInv. cbv zeta.
    destruct (setAt_fold (fun o idx => alignLine (blockColumn out block) (nth idx o []))
                         block out) as [Hl Hn].
    split; [rewrite <- Hlen; exact Hl|].
    intros j Hj. transitivity (nth j out []).
    + apply Hn. intros Hjb. destruct (Hin j Hjb) as [Hr Hq].
      destruct Hj as [Hj|Hj]; [lia|congruence].
    + apply Hnth. destruct Hj as [Hj|Hj]; [left; lia|now right].
  - intros j Hj. apply Hnth. destruct Hj as [Hj|Hj]; [left; lia|now right].
Qed.

End AlignEquals.

(** X14.  [alignEqualsBlocks] keeps the number of lines, and leaves as it is
    every line that cannot enter a block: a blank line, a line without ['=']
    outside its strings, a line whose stripped form starts with two
    slashes. *)
Theorem alignEqualsBlocks_untouched lines :
  length (alignEqualsBlocks lines) = length lines
  /\ forall j, qualifiesEq (nth j lines []) = false ->
               nth j (alignEqualsBlocks lines) [] = nth j lines [].
Proof.
  unfold alignEqualsBlocks.
  destruct (alignEqualsLoop_inv lines (S (length lines)) lines 0) as (i' & Hlen & Hnth).
  - split; [reflexivity|]. intros j _. reflexivity.
  - split; [exact Hlen|]. intros j Hj. apply Hnth. now right.
Qed.

Lemma alignEqualsBlocks_untouched_witness :
  nth 1 (alignEqualsBlocks [str "a = 1"; str "// b = 2"; str "cc = 3"]) [] = str "// b = 2".
Proof.
  apply (proj2 (alignEqualsBlocks_untouched [str "a = 1"; str "// b = 2"; str "cc = 3"]) 1).
  vm_compute. reflexivity.
Defined.

(* ------------------------------------------------------------------------- *)
(** ** The wrapping of comments *)

Lemma packWords_fits width words :
  forall cur,
    cur = [] \/ fits width cur ->
    Forall (fits width) words ->
    Forall (fits width) (packWords width cur words).
Proof.
  induction words as [|w words IH]; intros cur Hcur Hwords; simpl.
  - destruct cur; [constructor|]. destruct Hcur as [Hcur|Hcur]; [discriminate|].
    now repeat constructor.
  - inversion Hwords as [|? ? Hw Hrest]; subst.
    destruct cur as [|c cur']; [apply IH; auto|].
    destruct Hcur as [Hcur|Hcur]; [discriminate|].
    destruct (Z.leb_spec (Z.of_nat (length (c :: cur')) + 1 + Z.of_nat (length w)) width)
      as [Hle|Hgt].
    + apply IH; [|exact Hrest]. right. unfold fits.
      rewrite !length_app. simpl length in *. lia.
    + constructor; [exact Hcur|]. apply IH; auto.
Qed.

(** X15.  When every word of the text fits in the width, every line that
    [wrapText] gives fits in it. *)
Theorem wrapText_fits s width :
  Forall (fits width) (splitWsFrom [] false s) ->
  Forall (fits width) (wrapText s width).
Proof.
  intros H. unfold wrapText.
  destruct (Z.leb_spec (Z.of_nat (length s)) width) as [Hle|Hgt].
  - now repeat constructor.
  - apply packWords_fits; [now left|exact H].
Qed.

Lemma wrapText_fits_witness :
  Forall (fits 9) (wrapText (str "aaa bbb ccc ddd eee") 9).
Proof.
  apply (wrapText_fits (str "aaa bbb ccc ddd eee") 9).
  vm_compute. repeat constructor; discriminate.
Defined.

Lemma packWords_nonempty width words c cur : packWords width (c :: cur) words <> [].
Proof.
  revert c cur; induction words as [|w words IH]; intros c cur; simpl; [discriminate|].
  destruct (_ <=? _)%Z; [|discriminate].
  destruct cur; apply IH.
Qed.

Lemma packWords_join width words :
  forall cur,
    cur <> [] ->
    Forall (fun w => w <> []) words ->
    join [SP] (packWords width cur words) = join [SP] (cur :: words).
Proof.
  induction words as [|w words IH]; intros cur Hcur Hwords.
  - destruct cur; [congruence|reflexivity].
  - inversion Hwords as [|? ? Hw Hrest]; subst.
    assert (Hjoin : join [SP] (cur :: w :: words) = cur ++ [SP] ++ join [SP] (w :: words))
      by (apply join_cons; discriminate).
    rewrite Hjoin. clear Hjoin.
    destruct cur as [|c cur']; [congruence|]. cbn [packWords].
    destruct (_ <=? _)%Z.
    + rewrite IH; [|now destruct cur'|exact Hrest].
      destruct words as [|w2 words]; [reflexivity|].
      cbn [join]. now rewrite <- !app_assoc.
    + destruct w as [|x w']; [congruence|].
      transitivity ((c :: cur') ++ [SP] ++ join [SP] (packWords width (x :: w') words));
        [apply join_cons, packWords_nonempty|].
      do 2 f_equal. apply IH; [discriminate|exact Hrest].
Qed.

(** X16.  [wrapText] loses no word and changes no order: when the words of
    the text are not empty (the text neither starts nor ends with white
    space), the lines joined by one blank are the words joined by one blank;
    a text that fits is given back as one line. *)
Theorem wrapText_words s width :
  Forall (fun w => w <> []) (splitWsFrom [] false s) ->
  (Z.of_nat (length s) <= width)%Z /\ wrapText s width = [s]
  \/ (width < Z.of_nat (length s))%Z
     /\ join [SP] (wrapText s width) = join [SP] (splitWsFrom [] false s).
Proof.
  intros H. unfold wrapText.
  destruct (Z.leb_spec (Z.of_nat (length s)) width) as [Hle|Hgt]; [now left|].
  right. split; [exact Hgt|].
  destruct (splitWsFrom [] false s) as [|w words] eqn:Hw; [reflexivity|].
  inversion H as [|? ? Hw1 Hrest]; subst.
  cbn [packWords]. now apply packWords_join.
Qed.

Lemma wrapText_words_witness :
  join [SP] (wrapText (str "aaa bbb   ccc ddd") 7) = str "aaa bbb ccc ddd".
Proof.
  destruct (wrapText_words (str "aaa bbb   ccc ddd") 7) as [[Hle _]|[_ H]].
  - vm_compute. repeat constructor; discriminate.
  - vm_compute in Hle. exfalso. now apply Hle.
  - rewrite H. vm_compute. reflexivity.
Defined.

(** X17.  A comment line with nothing after the two slashes is removed by
    [wrapCommentLines] when its prefix is wider than the wrap column: the
    body is empty, the width left is negative, and no line is emitted. *)
Theorem wrapCommentLines_drops_empty ws max rest :
  forallb isSpace ws = true ->
  (max < Z.of_nat (visualWidth (ws ++ str "//") 2))%Z ->
  wrapCommentLines ((ws ++ str "//") :: rest) max = wrapCommentLines rest max.
Proof.
  intros Hws Hmax. cbn [wrapCommentLines].
  assert (Hm : matchLineComment (ws ++ str "//") = Some (ws ++ str "//", [])).
  { unfold matchLineComment.
    assert (Hd : dropWhile isSpace (ws ++ str "//") = str "//").
    { rewrite dropWhile_app, Hws. reflexivity. }
    assert (Ht : takeWhile isSpace (ws ++ str "//") = ws).
    { pose proof (takeWhile_dropWhile isSpace (ws ++ str "//")) as H.
      rewrite Hd in H. now apply app_inv_tail in H. }
    rewrite Hd, Ht. reflexivity. }
  rewrite Hm. cbn [trim dropWhile rev]. unfold wrapText. cbn [length].
  destruct (Z.leb_spec (Z.of_nat 0) (max - Z.of_nat (visualWidth (ws ++ str "//") 2)))
    as [Hle|_]; [lia|].
  reflexivity.
Qed.

Lemma wrapCommentLines_drops_empty_witness :
  wrapCommentLines [str "          //"; str "x"] 11 = wrapCommentLines [str "x"] 11.
Proof.
  apply (wrapCommentLines_drops_empty (str "          ") 11 [str "x"]).
  - reflexivity.
  - vm_compute. reflexivity.
Defined.

(* ------------------------------------------------------------------------- *)
(** ** The normalization of the indentation *)

Lemma repeatStr_one c n : repeatStr [c] n = repeat c n.
Proof. unfold repeatStr. induction n as [|n IH]; simpl; [reflexivity|now rewrite IH]. Qed.

Lemma expandTabs_flat tabSizeV lead :
  expandTabs tabSizeV lead =
  flat_map (fun c => if isTab c then repeatStr [SP] tabSizeV else [c]) lead.
Proof.
  change (expandTabs tabSizeV lead)
    with (replaceAll (rxChar isTab (fun _ => repeatStr [SP] tabSizeV)) lead).
  apply replaceAll_rxChar.
Qed.

Lemma expandTabs_blank tabSizeV lead :
  forallb isSpTab lead = true -> forallb isBlankChar (expandTabs tabSizeV lead) = true.
Proof.
  rewrite expandTabs_flat. induction lead as [|c lead IH]; simpl; [reflexivity|].
  intros H. apply andb_true_iff in H as [Hc Hlead].
  rewrite forallb_app, IH by exact Hlead. rewrite andb_true_r.
  unfold isTab. destruct (chEq c TAB) eqn:Ht.
  - rewrite repeatStr_one. clear. induction tabSizeV; simpl; [reflexivity|assumption].
  - simpl. unfold isSpTab in Hc. rewrite Ht, orb_false_r in Hc.
    unfold isBlankChar. now rewrite Hc.
Qed.

Lemma expandTabs_no_tab tabSizeV s :
  forallb isBlankChar s = true -> expandTabs tabSizeV s = s.
Proof.
  rewrite expandTabs_flat. induction s as [|c s IH]; simpl; [reflexivity|].
  intros H. apply andb_true_iff in H as [Hc Hs].
  unfold isBlankChar in Hc. apply chEq_eq in Hc. subst c.
  now rewrite IH.
Qed.

Lemma isBlankChar_isSpTab s : forallb isBlankChar s = true -> forallb isSpTab s = true.
Proof.
  induction s as [|c s IH]; simpl; [reflexivity|].
  intros H. apply andb_true_iff in H as [Hc Hs].
  rewrite (IH Hs), andb_true_r.
  unfold isSpTab. unfold isBlankChar in Hc. now rewrite Hc.
Qed.

Lemma takeWhile_app_stop p w body :
  forallb p w = true ->
  dropWhile p body = body ->
  takeWhile p (w ++ body) = w /\ dropWhile p (w ++ body) = body.
Proof.
  intros Hw Hbody. induction w as [|c w IH]; simpl.
  - split; [|exact Hbody].
    destruct body as [|x body]; [reflexivity|]. simpl in *.
    destruct (p x) eqn:Hx; [|reflexivity].
    exfalso. pose proof (dropWhile_head p body x body Hbody). congruence.
  - simpl in Hw. apply andb_true_iff in Hw as [Hc Hw]. rewrite Hc.
    destruct (IH Hw) as [-> ->]. now split.
Qed.

Lemma dropWhile_idem p s : dropWhile p (dropWhile p s) = dropWhile p s.
Proof.
  induction s as [|c s IH]; simpl; [reflexivity|].
  destruct (p c) eqn:Hc; [exact IH|]. simpl. now rewrite Hc.
Qed.

Lemma visualWidthFrom_tab tabSizeV w s :
  visualWidthFrom tabSizeV w (TAB :: s) =
  visualWidthFrom tabSizeV (w + (tabSizeV - w mod tabSizeV)) s.
Proof. reflexivity. Qed.

Lemma visualWidthFrom_blank tabSizeV w s :
  visualWidthFrom tabSizeV w (SP :: s) = visualWidthFrom tabSizeV (w + 1) s.
Proof. destruct s; reflexivity. Qed.

Lemma visualWidthFrom_tabs tabSizeV q :
  tabSizeV <> 0 ->
  forall w s,
    w mod tabSizeV = 0 ->
    visualWidthFrom tabSizeV w (repeat TAB q ++ s) =
    visualWidthFrom tabSizeV (w + q * tabSizeV) s.
Proof.
  intros Hts. induction q as [|q IH]; intros w s Hw.
  - simpl. now rewrite Nat.add_0_r.
  - cbn [repeat app]. rewrite visualWidthFrom_tab, Hw, Nat.sub_0_r.
    rewrite IH.
    + f_equal. simpl. lia.
    + replace (w + tabSizeV) with (w + 1 * tabSizeV) by lia.
      now rewrite Nat.Div0.mod_add.
Qed.

Lemma visualWidthFrom_blanks tabSizeV r :
  forall w, visualWidthFrom tabSizeV w (repeat SP r) = w + r.
Proof.
  induction r as [|r IH]; intros w; simpl repeat.
  - simpl. lia.
  - rewrite visualWidthFrom_blank, IH. lia.
Qed.

Lemma normalizeIndent_tabs_eq line indentUnit tabSizeV :
  tabSizeV <> 0 ->
  normalizeIndent line indentUnit tabSizeV false =
  Some (repeatStr [TAB] (visualWidth (takeWhile isSpTab line) tabSizeV / tabSizeV)
        ++ repeatStr [SP] (visualWidth (takeWhile isSpTab line) tabSizeV mod tabSizeV)
        ++ dropWhile isSpTab line).
Proof.
  intros H. unfold normalizeIndent. rewrite skipn_takeWhile.
  destruct tabSizeV; [congruence|reflexivity].
Qed.

Lemma normalizeIndent_tabs_shape line indentUnit tabSizeV raw :
  tabSizeV <> 0 ->
  normalizeIndent line indentUnit tabSizeV false = Some raw ->
  let width := visualWidth (takeWhile isSpTab line) tabSizeV in
  takeWhile isSpTab raw = repeat TAB (width / tabSizeV) ++ repeat SP (width mod tabSizeV)
  /\ width mod tabSizeV < tabSizeV
  /\ visualWidth (takeWhile isSpTab raw) tabSizeV = width
  /\ dropWhile isSpTab raw = dropWhile isSpTab line.
Proof.
  intros Hts H width. rewrite normalizeIndent_tabs_eq in H by exact Hts.
  fold width in H. set (ts := tabSizeV) in *. injection H as <-.
  rewrite !repeatStr_one, app_assoc.
  destruct (takeWhile_app_stop isSpTab
              (repeat TAB (width / ts) ++ repeat SP (width mod ts))
              (dropWhile isSpTab line)) as [Ht Hd].
  { rewrite forallb_app, <- !repeatStr_one, !repeatStr_all; reflexivity. }
  { apply dropWhile_idem. }
  rewrite Ht, Hd. split; [reflexivity|]. split; [now apply Nat.mod_upper_bound|].
  split; [|reflexivity].
  unfold visualWidth. rewrite visualWidthFrom_tabs by (auto using Nat.Div0.mod_0_l).
  rewrite visualWidthFrom_blanks. simpl.
  rewrite (Nat.div_mod_eq width ts) at 3. lia.
Qed.

(** X18.  With tabs and a tab size that is not zero, [normalizeIndent]
    rewrites the indentation as tabs followed by fewer blanks than a tab
    stop, keeps its visual width, and keeps the text after it. *)
Theorem normalizeIndent_tabs_width line indentUnit tabSizeV raw :
  tabSizeV <> 0 ->
  normalizeIndent line indentUnit tabSizeV false = Some raw ->
  let width := visualWidth (takeWhile isSpTab line) tabSizeV in
  takeWhile isSpTab raw = repeat TAB (width / tabSizeV) ++ repeat SP (width mod tabSizeV)
  /\ width mod tabSizeV < tabSizeV
  /\ visualWidth (takeWhile isSpTab raw) tabSizeV = width
  /\ dropWhile isSpTab raw = dropWhile isSpTab line.
Proof. apply normalizeIndent_tabs_shape. Qed.

Lemma normalizeIndent_tabs_width_witness :
  takeWhile isSpTab ([TAB; SP; SP; SP] ++ str "x")
  = repeat TAB (visualWidth [SP; SP; TAB; SP; SP; SP] 4 / 4)
    ++ repeat SP (visualWidth [SP; SP; TAB; SP; SP; SP] 4 mod 4).
Proof.
  apply (normalizeIndent_tabs_width ([SP; SP; TAB; SP; SP; SP] ++ str "x") [TAB] 4
           ([TAB; SP; SP; SP] ++ str "x")).
  - discriminate.
  - vm_compute. reflexivity.
Defined.

Lemma normalizeIndent_spaces_shape line indentUnit tabSizeV raw :
  normalizeIndent line indentUnit tabSizeV true = Some raw ->
  forallb isBlankChar (takeWhile isSpTab raw) = true
  /\ dropWhile isSpTab raw = dropWhile isSpTab line.
Proof.
  unfold normalizeIndent. rewrite skipn_takeWhile. intros [= <-].
  pose proof (expandTabs_blank tabSizeV _ (takeWhile_all isSpTab line)) as Hb.
  destruct (takeWhile_app_stop isSpTab (expandTabs tabSizeV (takeWhile isSpTab line))
              (dropWhile isSpTab line)) as [Ht Hd].
  { now apply isBlankChar_isSpTab. }
  { apply dropWhile_idem. }
  now rewrite Ht, Hd.
Qed.

(** X19.  With blanks, [normalizeIndent] leaves no tab in the indentation
    and keeps the text after it. *)
Theorem normalizeIndent_spaces line indentUnit tabSizeV raw :
  normalizeIndent line indentUnit tabSizeV true = Some raw ->
  forallb isBlankChar (takeWhile isSpTab raw) = true
  /\ dropWhile isSpTab raw = dropWhile isSpTab line.
Proof. apply normalizeIndent_spaces_shape. Qed.

Lemma normalizeIndent_spaces_witness :
  forallb isBlankChar (takeWhile isSpTab (str "     x")) = true.
Proof.
  apply (normalizeIndent_spaces ([SP; TAB] ++ str "x") (str "    ") 4 (str "     x")).
  vm_compute. reflexivity.
Defined.

(** X20.  [normalizeIndent] is idempotent, in every mode: a line that it
    gives is given back unchanged. *)
Theorem normalizeIndent_idempotent line indentUnit tabSizeV useSpaces raw :
  normalizeIndent line indentUnit tabSizeV useSpaces = Some raw ->
  normalizeIndent raw indentUnit tabSizeV useSpaces = Some raw.
Proof.
  intros H. destruct useSpaces.
  - destruct (normalizeIndent_spaces_shape _ _ _ _ H) as [Hb Hd].
    unfold normalizeIndent. rewrite skipn_takeWhile.
    rewrite expandTabs_no_tab by exact Hb.
    now rewrite takeWhile_dropWhile.
  - destruct tabSizeV as [|k].
    + unfold normalizeIndent in *. rewrite skipn_takeWhile in *.
      destruct (_ || _)%bool; [|discriminate]. injection H as <-.
      destruct (takeWhile_app_stop isSpTab [] (dropWhile isSpTab line)) as [Ht Hd];
        [reflexivity|apply dropWhile_idem|].
      simpl in Ht, Hd. rewrite Ht, Hd. reflexivity.
    + destruct (normalizeIndent_tabs_shape _ _ _ _ (Nat.neq_succ_0 k) H)
        as (Ht & _ & Hw & Hd).
      rewrite normalizeIndent_tabs_eq in * by apply Nat.neq_succ_0.
      now rewrite Hw, Hd.
Qed.

Lemma normalizeIndent_idempotent_witness :
  normalizeIndent ([TAB; SP; SP; SP] ++ str "x") [TAB] 4 false
  = Some ([TAB; SP; SP; SP] ++ str "x").
Proof.
  apply (normalizeIndent_idempotent ([SP; SP; TAB; SP; SP; SP] ++ str "x")).
  vm_compute. reflexivity.
Defined.

(* ------------------------------------------------------------------------- *)
(** ** The operator pass and the indentation *)

Lemma dropWhile_length p s : length (dropWhile p s) <= length s.
Proof.
  induction s as [|c s IH]; simpl; [lia|]. destruct (p c); simpl; lia.
Qed.

Lemma collapse_cons c s :
  replaceAll rxSpaces (c :: s) =
  if (chEq c SP && negb (headNotBlank s))%bool
  then SP :: replaceAll rxSpaces (dropWhile (chEq SP) s)
  else c :: replaceAll rxSpaces s.
Proof.
  rewrite replaceAll_cons. unfold rxSpaces. cbn [takeWhile].
  rewrite (chEq_sym SP c). destruct (chEq c SP) eqn:Hc; [|reflexivity].
  destruct s as [|d s]; [reflexivity|].
  cbn [takeWhile headNotBlank]. rewrite (chEq_sym SP d).
  destruct (chEq d SP) eqn:Hd; [|reflexivity].
  cbn [length Nat.leb negb andb Nat.pred app skipn].
  rewrite skipn_takeWhile. cbn [dropWhile]. now rewrite (chEq_sym SP d), Hd.
Qed.

Lemma dropWhile_headNotBlank s : headNotBlank (dropWhile (chEq SP) s) = true.
Proof.
  destruct (dropWhile (chEq SP) s) as [|c r] eqn:H; [reflexivity|].
  apply dropWhile_head in H. simpl. now rewrite chEq_sym, H.
Qed.

Lemma collapse_noDoubleBlank s :
  noDoubleBlank (replaceAll rxSpaces s) = true
  /\ (headNotBlank s = true -> headNotBlank (replaceAll rxSpaces s) = true).
Proof.
  induction s as [s IH] using length_induction.
  destruct s as [|c s]; [now split|].
  rewrite collapse_cons.
  destruct (chEq c SP && negb (headNotBlank s))%bool eqn:Hcase.
  - apply andb_true_iff in Hcase as [Hc _].
    assert (Hlt : length (dropWhile (chEq SP) s) < length (c :: s)).
    { pose proof (dropWhile_length (chEq SP) s). simpl. lia. }
    destruct (IH _ Hlt) as [Hnd Hhead].
    specialize (Hhead (dropWhile_headNotBlank s)).
    split.
    + cbn [noDoubleBlank]. rewrite Hnd, andb_true_r.
      destruct (replaceAll rxSpaces (dropWhile (chEq SP) s)) as [|b r]; [reflexivity|].
      simpl in Hhead. apply negb_true_iff in Hhead. now rewrite Hhead, andb_false_r.
    + simpl. now rewrite Hc.
  - destruct (IH s (Nat.lt_succ_diag_r _)) as [Hnd Hhead]. split.
    + cbn [noDoubleBlank]. rewrite Hnd, andb_true_r.
      destruct (chEq c SP) eqn:Hc; [|now destruct (replaceAll rxSpaces s)].
      simpl in Hcase. apply negb_false_iff in Hcase. specialize (Hhead Hcase).
      destruct (replaceAll rxSpaces s) as [|b r]; [reflexivity|].
      simpl in Hhead. apply negb_true_iff in Hhead. now rewrite Hhead.
    + simpl. auto.
Qed.

(** X21.  After the operator pass a line without quotes never holds two
    blanks in a row: the collapse of blank runs that ends the pass also runs
    over the indentation that was just applied, of which at most one blank
    is left. *)
Theorem ensureSpacesAroundOps_single_blanks line :
  forallb notQuote line = true ->
  noDoubleBlank (ensureSpacesAroundOpsOutsideStrings line) = true.
Proof.
  intros H. unfold ensureSpacesAroundOpsOutsideStrings, rewriteOutsideStrings.
  rewrite <- (app_nil_r line) at 1.
  rewrite rewriteOutside_code by exact H. cbn [app rewriteOutsideFrom].
  destruct line as [|c line]; [reflexivity|]. cbn [flushChunk].
  apply collapse_noDoubleBlank.
Qed.

Lemma ensureSpacesAroundOps_single_blanks_witness :
  noDoubleBlank (ensureSpacesAroundOpsOutsideStrings (str "      x=1;   y")) = true.
Proof.
  apply (ensureSpacesAroundOps_single_blanks (str "      x=1;   y")). reflexivity.
Defined.

(** What is left of three levels of indentation under the default options. *)
Example indentation_collapsed :
  editTexts (text_of [str "{"; str "{"; str "{"; str "x"]) None
  = Some [text_of [str "{"; str " {"; str " {"; str " x"; []]].
Proof. vm_compute. reflexivity. Qed.

(* ------------------------------------------------------------------------- *)
(** ** The number of lines *)

Lemma limitBlankFrom_length maxBlank lines :
  forall run, length (limitBlankFrom maxBlank run lines) <= length lines.
Proof.
  induction lines as [|l lines IH]; intros run; simpl; [lia|].
  destruct (isBlank l); [destruct (_ <=? _)%Z|]; simpl;
    match goal with |- context [limitBlankFrom _ ?r lines] => specialize (IH r) end; lia.
Qed.

Lemma alignEndOfLineComments_length lines :
  length (alignEndOfLineComments lines) = length lines.
Proof.
  unfold alignEndOfLineComments.
  pose proof (fun M => alignComments_fold M lines [] 0) as Hfold.
  cbn [length app] in Hfold.
  destruct (commentInfo 0 0 lines) as [info m]. cbn [fst] in Hfold.
  destruct info as [|e info]; [reflexivity|].
  etransitivity; [apply f_equal, (Hfold m)|apply length_map].
Qed.

Lemma alignEqualsBlocks_length lines :
  length (alignEqualsBlocks lines) = length lines.
Proof.
  unfold alignEqualsBlocks.
  destruct (alignEqualsLoop_inv lines (S (length lines)) lines 0) as (i' & Hlen & _);
    [|exact Hlen].
  split; [reflexivity|]. intros j _. reflexivity.
Qed.

(** X22.  Without the comment wrapper the passes never add an entry to the
    array of lines: the output has at most as many entries as the input (only
    the blank-run limiter changes the count, and it only removes).  An entry
    may itself hold a line feed, written by the brace style ["break"] or by
    [newlineBeforeElse]. *)
Theorem formatLines_no_more_lines src opt out :
  wrapDisabled opt ->
  formatLines src opt = Some out ->
  length out <= length src.
Proof.
  unfold wrapDisabled, formatLines, passIndentAndSpacing. intros Hwrap.
  destruct (passLoop _ _ opt ([], 0%Z) src) as [[lines lvl]|] eqn:Hpass; [|discriminate].
  apply passLoop_level in Hpass as [_ Hlen]. simpl in Hlen. simpl.
  intros [= <-].
  assert (Hwrapped : forall ls : list jsstring,
             match wrapCommentsAt opt with
             | Some w => if (10 <? w)%Z then wrapCommentLines ls w else ls
             | None => ls
             end = ls).
  { intros ls. destruct (wrapCommentsAt opt) as [w|]; [|reflexivity].
    destruct (Z.ltb_spec 10 w); [lia|reflexivity]. }
  rewrite Hwrapped.
  pose proof (limitBlankFrom_length (orDefault (maxConsecutiveBlankLines opt) 2%Z) lines 0)
    as Hlimit.
  unfold limitBlankRuns.
  destruct (truthy (alignInlineComments opt)), (truthy (alignEquals opt));
    rewrite ?alignEqualsBlocks_length, ?alignEndOfLineComments_length; lia.
Qed.

Lemma formatLines_no_more_lines_witness :
  length [str "a"; []; []; str "b"] <= length [str "a"; []; []; []; []; str "b"].
Proof.
  apply (formatLines_no_more_lines [str "a"; []; []; []; []; str "b"] lspOptions).
  - exact I.
  - vm_compute. reflexivity.
Defined.

(* ------------------------------------------------------------------------- *)
(** ** When the formatter raises *)

Lemma normalizeIndent_None line indentUnit tabSizeV useSpaces :
  normalizeIndent line indentUnit tabSizeV useSpaces = None <->
  useSpaces = false /\ tabSizeV = 0 /\ blankOnlyIndent line = true.
Proof.
  unfold normalizeIndent, blankOnlyIndent.
  destruct useSpaces; [split; [discriminate|intros (H & _); discriminate]|].
  destruct tabSizeV as [|k]; [|split; [discriminate|intros (_ & H & _); discriminate]].
  destruct (includes _ TAB); destruct (Nat.eqb _ 0); simpl;
    (split; [discriminate || tauto|intros (_ & _ & H); discriminate || reflexivity]).
Qed.

Lemma passLoop_None indentUnit tabSizeV opt src :
  forall st,
    passLoop indentUnit tabSizeV opt st src = None <->
    Exists (fun l => normalizeIndent l indentUnit tabSizeV
                       (orDefault (insertSpaces opt) true) = None) src.
Proof.
  induction src as [|l src IH]; intros [out lvl]; simpl.
  - split; [discriminate|]. intros H. inversion H.
  - destruct (normalizeIndent l indentUnit tabSizeV _) as [raw|] eqn:Hraw.
    + rewrite IH. split; [now right|].
      intros H. inversion H; subst; [congruence|assumption].
    + split; [now left|reflexivity].
Qed.

(** X23.  [provideFormattingEdits] raises in two cases and no other: the
    passes raise (the [RangeError] of [repeat]), which is exactly when tabs
    are asked for, the tab size is 0 and some line is indented with blanks
    only; or the text changes and [fullRange] raises (the [Error] of
    [Range.create]).  With the library before 3.16 the second case never
    happens; from 3.16 on it happens for every text that formatting
    changes, so the call returns only [[]]. *)
Theorem provideFormattingEdits_raises lib doc options :
  let opts := orDefault options defaultOptions in
  let rangeError :=
    orDefault (insertSpaces opts) true = false
    /\ orDefault (tabSize opts) 2 = 0
    /\ Exists (fun l => blankOnlyIndent l = true) (splitLines (getText doc)) in
  let changed :=
    exists text, formattedText (getText doc) opts = Some text
                 /\ text <> normalizedOrig (getText doc) opts in
  (formattedText (getText doc) opts = None <-> rangeError)
  /\ (provideFormattingEdits lib doc options = None <->
      rangeError \/ (changed /\ fullRange lib doc = None))
  /\ (provideFormattingEdits types_3_15 doc options = None <-> rangeError)
  /\ (provideFormattingEdits types_3_16 doc options = None <-> rangeError \/ changed)
  /\ (forall edits, provideFormattingEdits types_3_16 doc options = Some edits -> edits = []).
Proof.
  intros opts rangeError changed.
  assert (Hfmt : formatLines (splitLines (getText doc)) opts = None <->
                 passLoop (if orDefault (insertSpaces opts) true
                           then repeatStr [SP] (orDefault (tabSize opts) 2) else [TAB])
                          (orDefault (tabSize opts) 2) opts ([], 0%Z)
                          (splitLines (getText doc)) = None).
  { unfold formatLines, passIndentAndSpacing.
    destruct (passLoop _ _ opts ([], 0%Z) (splitLines (getText doc))) as [[ls lvl]|];
      simpl; split; congruence. }
  rewrite passLoop_None in Hfmt.
  assert (Hraise : formattedText (getText doc) opts = None <-> rangeError).
  { unfold formattedText.
    destruct (formatLines (splitLines (getText doc)) opts) as [outLines|] eqn:Hlines.
    - split; [discriminate|]. intros (Hs & Ht & Hex). exfalso.
      assert (Some outLines = None); [|discriminate].
      apply Hfmt. apply Exists_exists in Hex as (l & Hin & Hl).
      apply Exists_exists. exists l. split; [exact Hin|].
      apply normalizeIndent_None. now repeat split.
    - split; [|reflexivity]. intros _.
      pose proof (proj1 Hfmt eq_refl) as Hex.
      apply Exists_exists in Hex as (l & Hin & Hl).
      apply normalizeIndent_None in Hl as (Hs & Ht & Hb).
      repeat split; [exact Hs|exact Ht|]. apply Exists_exists. now exists l. }
  assert (Hgen : forall lib', provideFormattingEdits lib' doc options = None <->
                   rangeError \/ (changed /\ fullRange lib' doc = None)).
  { intros lib'. unfold provideFormattingEdits. fold opts.
    destruct (formattedText (getText doc) opts) as [text|] eqn:Htext.
    - destruct (strEq (normalizedOrig (getText doc) opts) text) eqn:Heq.
      + apply strEq_eq in Heq. split; [discriminate|].
        intros [H|[(t & [= <-] & Hne) _]]; [apply Hraise in H; discriminate|].
        now elim Hne.
      + assert (Hne : text <> normalizedOrig (getText doc) opts).
        { intros ->.
          assert (strEq (normalizedOrig (getText doc) opts)
                        (normalizedOrig (getText doc) opts) = true) by now apply strEq_eq.
          congruence. }
        destruct (fullRange lib' doc) as [r|].
        * split; [discriminate|].
          intros [H|[_ H]]; [apply Hraise in H|]; discriminate.
        * split; [|reflexivity]. intros _. right. split; [|reflexivity].
          exists text. now split.
    - split; [|reflexivity]. intros _. left. now apply Hraise. }
  split; [exact Hraise|]. split; [apply Hgen|]. split; [|split].
  - rewrite Hgen, fullRange_types_3_15. split; [|now left].
    intros [H|[_ H]]; [exact H|discriminate].
  - rewrite Hgen. split.
    + intros [H|[H _]]; [now left|now right].
    + intros [H|H]; [now left|right]. split; [exact H|apply fullRange_types_3_16].
  - intros edits. unfold provideFormattingEdits. fold opts.
    destruct (formattedText (getText doc) opts) as [text|]; [|discriminate].
    destruct (strEq _ _); [now intros [= <-]|].
    rewrite fullRange_types_3_16. discriminate.
Qed.

Lemma provideFormattingEdits_raises_witness :
  provideFormattingEdits types_3_15 (mkDocument (text_of [str "a"; str "  b"]))
    (Some tabsOfZero) = None
  /\ provideFormattingEdits types_3_16 (mkDocument (str "a=1")) None = None.
Proof.
  split.
  - apply (proj2 (proj1 (proj2 (proj2 (provideFormattingEdits_raises types_3_15
                    (mkDocument (text_of [str "a"; str "  b"])) (Some tabsOfZero)))))).
    split; [reflexivity|]. split; [reflexivity|].
    right. left. reflexivity.
  - apply (proj2 (proj1 (proj2 (proj2 (proj2 (provideFormattingEdits_raises types_3_16
                    (mkDocument (str "a=1")) None)))))).
    right. exists (str "a = 1" ++ [LF]). split; [vm_compute; reflexivity|].
    vm_compute. discriminate.
Defined.

(* ------------------------------------------------------------------------- *)
(** ** The text helpers of the suggestion view *)

Lemma flat_map_flat_map (f g : char -> jsstring) (l : jsstring) :
  flat_map g (flat_map f l) = flat_map (fun c => flat_map g (f c)) l.
Proof.
  induction l as [|c l IH]; simpl; [reflexivity|].
  now rewrite flat_map_app, IH.
Qed.

Lemma escapeChar_chain c :
  flat_map (fun c => if chEq SQ c then str "&#39;" else [c])
    (flat_map (fun c => if chEq DQ c then str "&quot;" else [c])
       (flat_map (fun c => if chEq (ch ">") c then str "&gt;" else [c])
          (flat_map (fun c => if chEq (ch "<") c then str "&lt;" else [c])
             (if chEq (ch "&") c then str "&amp;" else [c]))))
  = escapeChar c.
Proof.
  unfold escapeChar.
  destruct (chEq (ch "&") c) eqn:H1; [reflexivity|]. cbn [flat_map app].
  destruct (chEq (ch "<") c) eqn:H2; [reflexivity|]. cbn [flat_map app].
  destruct (chEq (ch ">") c) eqn:H3; [reflexivity|]. cbn [flat_map app].
  destruct (chEq DQ c) eqn:H4; [reflexivity|]. cbn [flat_map app].
  destruct (chEq SQ c) eqn:H5; reflexivity.
Qed.

Lemma escapeHtml_flat value : escapeHtml value = flat_map escapeChar value.
Proof.
  unfold escapeHtml. cbv zeta. rewrite !replaceAll_rxChar.
  rewrite !flat_map_flat_map.
  apply flat_map_ext. intros c. rewrite <- escapeChar_chain.
  now rewrite !flat_map_flat_map.
Qed.

Lemma escapeChar_safe c : forallb (fun x => negb (htmlSpecial x)) (escapeChar c) = true.
Proof.
  unfold escapeChar.
  destruct (chEq (ch "&") c) eqn:H1; [reflexivity|].
  destruct (chEq (ch "<") c) eqn:H2; [reflexivity|].
  destruct (chEq (ch ">") c) eqn:H3; [reflexivity|].
  destruct (chEq DQ c) eqn:H4; [reflexivity|].
  destruct (chEq SQ c) eqn:H5; [reflexivity|].
  simpl. unfold htmlSpecial. now rewrite H2, H3, H4, H5.
Qed.

(** X24.  [escapeHtml] works code unit by code unit (the ampersands that
    the first replacement writes are not escaped again by the next ones), it
    is compatible with concatenation, and its result holds no ['<'], ['>'],
    double quote or single quote. *)
Theorem escapeHtml_safe value :
  escapeHtml value = flat_map escapeChar value
  /\ (forall a b, escapeHtml (a ++ b) = escapeHtml a ++ escapeHtml b)
  /\ forallb (fun x => negb (htmlSpecial x)) (escapeHtml value) = true.
Proof.
  split; [apply escapeHtml_flat|]. split.
  - intros a b. rewrite !escapeHtml_flat. apply flat_map_app.
  - rewrite escapeHtml_flat. induction value as [|c value IH]; simpl; [reflexivity|].
    now rewrite forallb_app, escapeChar_safe, IH.
Qed.

Example escapeHtml_example :
  escapeHtml (str "<a href='x'>R&D</a>")
  = str "&lt;a href=&#39;x&#39;&gt;R&amp;D&lt;/a&gt;".
Proof. vm_compute. reflexivity. Qed.

(** X25.  [sanitize] removes the angle brackets and nothing else: its
    result is the input filtered, it holds no angle bracket, and sanitizing
    twice is sanitizing once. *)
Theorem sanitize_spec input :
  sanitize input = filter (fun c => negb (isAngle c)) input
  /\ forallb (fun c => negb (isAngle c)) (sanitize input) = true
  /\ sanitize (sanitize input) = sanitize input.
Proof.
  assert (H : forall s, sanitize s = filter (fun c => negb (isAngle c)) s).
  { intros s. unfold sanitize. rewrite replaceAll_rxChar.
    induction s as [|c s IH]; [reflexivity|]. cbn [flat_map filter].
    fold (isAngle c). destruct (isAngle c); cbn [negb app]; now rewrite IH. }
  split; [apply H|]. rewrite !H. split.
  - apply forallb_forall. intros c Hc. now apply filter_In in Hc.
  - induction input as [|c input IH]; simpl; [reflexivity|].
    destruct (isAngle c) eqn:Hc; simpl; [exact IH|]. now rewrite Hc, IH.
Qed.

(* ------------------------------------------------------------------------- *)
(** ** Literals left open, aligned lines, ends of lines *)

Lemma rewriteStrings_open fn q content :
  forall acc,
    chEq q BSL = false ->
    closedContent q content = true ->
    rewriteStringsFrom fn (Some (q, acc)) content = fn (acc ++ content) q.
Proof.
  induction content as [content IH] using length_induction.
  intros acc Hq Hclosed. destruct content as [|c content]; simpl in *.
  - now rewrite app_nil_r.
  - destruct (chEq c BSL).
    + destruct content as [|d content]; [discriminate|].
      rewrite IH by (auto; simpl; lia). now rewrite <- app_assoc.
    + apply andb_true_iff in Hclosed as [Hcq Hclosed].
      apply negb_true_iff in Hcq. rewrite Hcq.
      rewrite IH by (auto; simpl; lia). now rewrite <- app_assoc.
Qed.

(** X26.  A literal that is still open at the end of the line is closed by
    the quote normalizer: the line comes out with the closing quote added,
    and with the delimiter changed under the same condition as for a closed
    literal. *)
Theorem normalizeQuotesInLine_closes_open_literal target code q content :
  forallb notQuote code = true ->
  isQuote q = true ->
  closedContent q content = true ->
  normalizeQuotesInLine (code ++ q :: content) target =
  code ++ render (requote target (Literal q content)).
Proof.
  intros Hcode Hq Hclosed. unfold normalizeQuotesInLine, rewriteStrings.
  rewrite rewriteStrings_code by exact Hcode. f_equal.
  cbn [rewriteStringsFrom]. rewrite Hq.
  rewrite rewriteStrings_open by (auto using isQuote_not_BSL).
  apply normalizeQuotesFn_requote.
Qed.

Lemma normalizeQuotesInLine_closes_open_literal_witness :
  normalizeQuotesInLine (str "it's") QuoteDouble = str "it" ++ dq "s".
Proof.
  apply (normalizeQuotesInLine_closes_open_literal QuoteDouble (str "it") SQ (str "s"));
    reflexivity.
Defined.

Lemma splitOn_first c left right :
  freeOf c left = true -> splitOn c (left ++ c :: right) = left :: splitOn c right.
Proof.
  intros H. unfold splitOn. rewrite splitOnFrom_app_free by exact H.
  simpl. now rewrite chEq_refl.
Qed.

(** X27.  What the equals alignment makes of a line, split at its first
    ['=']: the left part without its trailing blanks and tabs, at least one
    blank of padding, then [" = "], then the right part without its leading
    white space; so at least two blanks come before the sign, and the later
    ['='] signs stay in the right part. *)
Theorem alignLine_spec col left right :
  freeOf (ch "=") left = true ->
  alignLine col (left ++ ch "=" :: right) =
  trimTrailingSpTab left ++ repeat SP (Nat.max 1 (col - visualWidth left 2))
    ++ str " = " ++ dropWhile isSpace right.
Proof.
  intros H. unfold alignLine. rewrite splitOn_first by exact H.
  cbn [hd tl]. rewrite repeatStr_one.
  change (str "=") with [ch "="]. unfold splitOn. now rewrite join_splitOnFrom.
Qed.

Lemma alignLine_spec_witness :
  alignLine 9 (str "longname = 2 == x") = str "longname  = 2 == x".
Proof.
  etransitivity;
    [apply (alignLine_spec 9 (str "longname ") (str " 2 == x")); reflexivity|].
  vm_compute. reflexivity.
Defined.

Lemma splitLines_lfToCrlf text :
  freeOf CR text = true -> splitLines (lfToCrlf text) = splitLines text.
Proof.
  intros H. unfold splitLines.
  now rewrite crlfToLf_lfToCrlf, crlfToLf_no_CR.
Qed.

(** X28.  The formatter does not see which convention the document uses: a
    text without carriage returns and the same text with CR LF line ends get
    the same edits (the same new text, or no edit for both).  So a document
    whose only difference from its formatted text is the convention gets no
    edit: [normalizeEOL] alone never produces one.  This holds with the
    library before 3.16 and with the library from 3.16 on (where both calls
    raise when the text changes); whatever [Position.is] accepts, the two
    calls agree on whether there is nothing to change and on the new text
    when both return. *)
Theorem provideFormattingEdits_eol_blind doc1 doc2 options :
  freeOf CR (getText doc2) = true ->
  getText doc1 = lfToCrlf (getText doc2) ->
  (forall lib, lib = types_3_15 \/ lib = types_3_16 ->
     option_map (map newText) (provideFormattingEdits lib doc1 options)
     = option_map (map newText) (provideFormattingEdits lib doc2 options))
  /\ (forall lib,
        (provideFormattingEdits lib doc1 options = Some [] <->
         provideFormattingEdits lib doc2 options = Some [])
        /\ (forall edits1 edits2,
              provideFormattingEdits lib doc1 options = Some edits1 ->
              provideFormattingEdits lib doc2 options = Some edits2 ->
              map newText edits1 = map newText edits2)).
Proof.
  intros Hcr Htext. split.
  - intros lib Hlib.
    unfold provideFormattingEdits, formattedText, normalizedOrig.
    rewrite Htext, (splitLines_lfToCrlf _ Hcr).
    destruct (formatLines _ _); [|reflexivity].
    destruct (strEq _ _); [reflexivity|].
    destruct Hlib as [-> | ->].
    + now rewrite !fullRange_types_3_15.
    + now rewrite !fullRange_types_3_16.
  - intros lib.
    unfold provideFormattingEdits, formattedText, normalizedOrig.
    rewrite Htext, (splitLines_lfToCrlf _ Hcr).
    destruct (formatLines _ _); [|split; [reflexivity|discriminate]].
    destruct (strEq _ _).
    + split; [reflexivity|]. now intros ? ? [= <-] [= <-].
    + destruct (fullRange lib doc1), (fullRange lib doc2);
        (split; [split; discriminate|]); try discriminate.
      now intros ? ? [= <-] [= <-].
Qed.

Lemma provideFormattingEdits_eol_blind_witness :
  option_map (map newText)
    (provideFormattingEdits types_3_15
       (mkDocument (str "f(a, b)" ++ [CR; LF] ++ str "x" ++ [CR; LF])) None)
  = Some [].
Proof.
  destruct (provideFormattingEdits_eol_blind
              (mkDocument (str "f(a, b)" ++ [CR; LF] ++ str "x" ++ [CR; LF]))
              (mkDocument (text_of [str "f(a, b)"; str "x"; []])) None) as [H _].
  - vm_compute. reflexivity.
  - reflexivity.
  - rewrite (H types_3_15) by (now left). vm_compute. reflexivity.
Defined.
